(** * McapUnindexedIterableSource: the in-memory reader for unindexed MCAP files

    A shallow embedding of [McapUnindexedIterableSource] (its [initialize],
    [messageIterator] and [getBackfillMessages] methods and the
    [processRecord] closure of [initialize]) together with the properties
    its specification states about them. *)

From Stdlib Require Import ZArith Lia Permutation Sorted.
From stdpp Require Import base decidable option list gmap strings pretty.

Local Open Scope Z_scope.

(** ** JavaScript [Map]: a finite map that remembers insertion order

    Iterating a JS [Map] visits the entries in the order in which their keys
    were first inserted; [set] on a key that is present replaces the value in
    place. *)
Module JsMap.
Section JsMap.
Context {K V : Type} `{EqDecision K}.

Definition t : Type := list (K * V).

Definition empty : t := [].

Fixpoint get (m : t) (k : K) : option V :=
  match m with
  | [] => None
  | (k', v) :: m' => if decide (k = k') then Some v else get m' k
  end.

Fixpoint set (m : t) (k : K) (v : V) : t :=
  match m with
  | [] => [(k, v)]
  | (k', v') :: m' =>
      if decide (k = k') then (k, v) :: m' else (k', v') :: set m' k v
  end.

Definition has (m : t) (k : K) : bool := bool_decide (is_Some (get m k)).

Definition keys (m : t) : list K := map fst m.
Definition values (m : t) : list V := map snd m.
Definition entries (m : t) : list (K * V) := m.
End JsMap.
Arguments t : clear implicits.
End JsMap.

(** ** Time values of the rostime package *)

(** Modelled from the spec: [Time] and its helpers ([fromNanoSec],
    [compare], [isLessThan], [isGreaterThan], [isTimeInRangeInclusive]) are
    imported by the source from the rostime package and not defined in it.
    A time is the structured form [{ sec, nsec }] of a nanosecond count:
    [fromNanoSec] splits a BigInt with BigInt [/] and [%], which truncate
    towards zero; [compare] is negative, zero or positive as the first time
    is before, equal to or after the second (the difference of the seconds,
    or of the nanoseconds when the seconds agree); a time is in a range when
    it is neither before its start nor after its end. *)
Record Time : Type := mkTime { sec : Z; nsec : Z }.

#[global] Instance Time_eq_dec : EqDecision Time.
Proof. solve_decision. Defined.

Definition fromNanoSec (ns : Z) : Time :=
  {| sec := Z.quot ns 1000000000; nsec := Z.rem ns 1000000000 |}.

Definition compare (left right : Time) : Z :=
  let secDiff := sec left - sec right in
  if decide (secDiff ≠ 0) then secDiff else nsec left - nsec right.

Definition isLessThan (left right : Time) : bool :=
  bool_decide (compare left right < 0).

Definition isGreaterThan (left right : Time) : bool :=
  bool_decide (compare left right > 0).

Definition isTimeInRangeInclusive (time start end_ : Time) : bool :=
  if bool_decide (compare start time > 0) || bool_decide (compare end_ time < 0)
  then false else true.

(** ** Records of the MCAP stream

    Only the record kinds [processRecord] distinguishes carry their fields;
    every other kind falls into the [default] branch. *)
Record Schema : Type := mkSchema {
  schema_id : Z;
  schema_name : string;
  schema_encoding : string;
  schema_data : list Byte.byte
}.

Record Channel : Type := mkChannel {
  channel_id : Z;
  channel_schemaId : Z;
  channel_topic : string;
  channel_messageEncoding : string;
  channel_metadata : gmap string string
}.

Record Message : Type := mkMessage {
  message_channelId : Z;
  message_sequence : Z;
  message_logTime : Z;
  message_publishTime : Z;
  message_data : list Byte.byte
}.

Inductive TypedMcapRecord : Type :=
  | RHeader (profile : string) (library : string)
  | RMetadata (name : string) (metadata : gmap string string)
  | RSchema (s : Schema)
  | RChannel (c : Channel)
  | RMessage (m : Message)
  | ROther (type : string).

(** [_.isEqual] on two records is deep equality: the same fields with the
    same contents (byte for byte for the data, entry for entry for the
    metadata map). *)
#[global] Instance byte_eq_dec : EqDecision Byte.byte := Byte.byte_eq_dec.

#[global] Instance Schema_eq_dec : EqDecision Schema.
Proof. solve_decision. Defined.

#[global] Instance Channel_eq_dec : EqDecision Channel.
Proof. solve_decision. Defined.

(** ** What [initialize] builds *)

Record MessageEvent : Type := mkMessageEvent {
  topic : string;
  receiveTime : Time;
  publishTime : Time;
  message : list Byte.byte;
  sizeInBytes : Z;
  schemaName : string
}.

#[global] Instance MessageEvent_eq_dec : EqDecision MessageEvent.
Proof. solve_decision. Defined.

Inductive Severity : Type := SevError | SevWarn | SevInfo.

Record PlayerAlert : Type := mkAlert {
  severity : Severity;
  alert_message : string;
  alert_tip : option string;
  alert_error : option string
}.

Record Metadata : Type := mkMetadata {
  metadata_name : string;
  metadata_metadata : gmap string string
}.

Record TopicStats : Type := mkTopicStats { numMessages : nat }.

Record TopicWithDecodingInfo : Type := mkTopic {
  topic_name : string;
  topic_messageEncoding : string;
  topic_schemaName : option string;
  topic_schemaData : option (list Byte.byte);
  topic_schemaEncoding : option string
}.

(** Everything [initialize] and the two queries can throw. *)
Inductive Error : Type :=
  | SizeLimitExceeded
  | DecompressHandlersFailed (reason : string)
  | ReaderFailed (reason : string)
  | DifferingSchemas (id : Z)
  | DifferingChannelInfos (id : Z)
  | NoPriorSchema (schemaId : Z)
  | NoPriorChannelInfo (channelId : Z)
  | InitializationNotCompleted.

#[global] Instance Error_eq_dec : EqDecision Error.
Proof. solve_decision. Defined.

(** The text of the thrown [Error]. *)
Definition error_message (e : Error) : string :=
  match e with
  | SizeLimitExceeded =>
      "Unable to open unindexed MCAP file; unindexed files are limited to 1GB"
  | DecompressHandlersFailed reason => reason
  | ReaderFailed reason => reason
  | DifferingSchemas id => "differing schemas for id " +:+ pretty id
  | DifferingChannelInfos id => "differing channel infos for id " +:+ pretty id
  | NoPriorSchema schemaId =>
      "Encountered channel with schema id " +:+ pretty schemaId
        +:+ " but no prior schema"
  | NoPriorChannelInfo channelId =>
      "message for channel " +:+ pretty channelId +:+ " with no prior channel info"
  | InitializationNotCompleted => "initialization not completed"
  end.

Definition Throws (A : Type) : Type := Error + A.
Definition ok {A} (a : A) : Throws A := inr a.
Definition throw {A} (e : Error) : Throws A := inl e.
Definition bind {A B} (x : Throws A) (k : A → Throws B) : Throws B :=
  match x with inl e => inl e | inr a => k a end.
Arguments ok {A} a /.
Arguments throw {A} e /.

Notation "'let!' x ':=' c 'in' k" := (bind c (fun x => k))
  (at level 10, x name, c at level 100, k at level 200).

Definition DURATION_YEAR_SEC : Z := 365 * 24 * 60 * 60.
Definition SIZE_LIMIT : Z := 1024 * 1024 * 1024.

(** ** Collaborators

    The decoder ([McapStreamReader]), the decompression lookup and the
    channel decoding-plan builder ([parseChannel]) are used through their
    interfaces.  [feed rd chunk] stands for [reader.append(chunk)] followed
    by the [nextRecord()] loop: the records handed out before the reader
    either throws or asks for more bytes.  The duration test
    [toSec(subtract(end, start)) > DURATION_YEAR_SEC] is a floating-point
    comparison and [toRFC3339String] a calendar rendering; both are taken as
    they are. *)
Class Collaborators : Type := {
  ParsedChannel : Type;
  Datatype : Type;
  datatypes : ParsedChannel → list (string * Datatype);
  parseChannel : string → option Schema → string + ParsedChannel;
  DecompressHandlers : Type;
  loadDecompressHandlers : string + DecompressHandlers;
  Reader : Type;
  newReader : DecompressHandlers → Reader;
  feed : Reader → list Byte.byte → list TypedMcapRecord * (string + Reader);
  durationExceeds : Time → Time → Z → bool;
  toRFC3339String : Time → string
}.

Section Engine.
Context `{Collaborators}.

Record ChannelInfo : Type := mkChannelInfo {
  info_channel : Channel;
  info_parsedChannel : ParsedChannel;
  info_schemaName : option string;
  info_schemaEncoding : option string;
  info_schemaData : option (list Byte.byte)
}.

(** The variables [processRecord] closes over. *)
Record State : Type := mkState {
  alerts : list PlayerAlert;
  metadata : list Metadata;
  channelIdsWithErrors : gset Z;
  messageCount : nat;
  messagesByChannel : JsMap.t Z (list MessageEvent);
  schemasById : gmap Z Schema;
  channelInfoById : JsMap.t Z ChannelInfo;
  startTime : option Time;
  endTime : option Time;
  profile : option string
}.

Definition initial_state : State :=
  {| alerts := []; metadata := []; channelIdsWithErrors := ∅;
     messageCount := 0%nat; messagesByChannel := JsMap.empty;
     schemasById := ∅; channelInfoById := JsMap.empty;
     startTime := None; endTime := None; profile := None |}.

Definition channel_error_alert (record : Channel) (error : string) : PlayerAlert :=
  {| severity := SevError;
     alert_message :=
       "Error in topic " +:+ channel_topic record +:+ " (channel "
         +:+ pretty (channel_id record) +:+ "): " +:+ error;
     alert_tip := None;
     alert_error := Some error |}.

Definition make_event (channelInfo : ChannelInfo) (record : Message) : MessageEvent :=
  {| topic := channel_topic (info_channel channelInfo);
     receiveTime := fromNanoSec (message_logTime record);
     publishTime := fromNanoSec (message_publishTime record);
     message := message_data record;
     sizeInBytes := Z.of_nat (length (message_data record));
     schemaName := default "" (info_schemaName channelInfo) |}.

(** [startTime]/[endTime] after a message received at [receiveTime]. *)
Definition next_startTime (startTime : option Time) (receiveTime : Time) : option Time :=
  match startTime with
  | None => Some receiveTime
  | Some t => if isLessThan receiveTime t then Some receiveTime else Some t
  end.

Definition next_endTime (endTime : option Time) (receiveTime : Time) : option Time :=
  match endTime with
  | None => Some receiveTime
  | Some t => if isGreaterThan receiveTime t then Some receiveTime else Some t
  end.

Definition processRecord (st : State) (record : TypedMcapRecord) : Throws State :=
  match record with
  | ROther _ => ok st
  | RHeader p _ =>
      ok {| alerts := alerts st; metadata := metadata st;
            channelIdsWithErrors := channelIdsWithErrors st;
            messageCount := messageCount st;
            messagesByChannel := messagesByChannel st;
            schemasById := schemasById st;
            channelInfoById := channelInfoById st;
            startTime := startTime st; endTime := endTime st;
            profile := Some p |}
  | RMetadata name md =>
      ok {| alerts := alerts st;
            metadata := metadata st ++ [ {| metadata_name := name; metadata_metadata := md |} ];
            channelIdsWithErrors := channelIdsWithErrors st;
            messageCount := messageCount st;
            messagesByChannel := messagesByChannel st;
            schemasById := schemasById st;
            channelInfoById := channelInfoById st;
            startTime := startTime st; endTime := endTime st;
            profile := profile st |}
  | RSchema record =>
      let store :=
        {| alerts := alerts st; metadata := metadata st;
           channelIdsWithErrors := channelIdsWithErrors st;
           messageCount := messageCount st;
           messagesByChannel := messagesByChannel st;
           schemasById := <[schema_id record := record]> (schemasById st);
           channelInfoById := channelInfoById st;
           startTime := startTime st; endTime := endTime st;
           profile := profile st |} in
      match schemasById st !! schema_id record with
      | Some existingSchema =>
          if decide (existingSchema = record) then ok store
          else throw (DifferingSchemas (schema_id record))
      | None => ok store
      end
  | RChannel record =>
      match JsMap.get (channelInfoById st) (channel_id record) with
      | Some existingInfo =>
          if decide (info_channel existingInfo = record) then ok st
          else throw (DifferingChannelInfos (channel_id record))
      | None =>
          if decide (channel_id record ∈ channelIdsWithErrors st) then ok st
          else
            let schema := schemasById st !! channel_schemaId record in
            if decide (channel_schemaId record ≠ 0 ∧ schema = None)
            then throw (NoPriorSchema (channel_schemaId record))
            else
              match parseChannel (channel_messageEncoding record) schema with
              | inr parsedChannel =>
                  ok {| alerts := alerts st; metadata := metadata st;
                        channelIdsWithErrors := channelIdsWithErrors st;
                        messageCount := messageCount st;
                        messagesByChannel :=
                          JsMap.set (messagesByChannel st) (channel_id record) [];
                        schemasById := schemasById st;
                        channelInfoById :=
                          JsMap.set (channelInfoById st) (channel_id record)
                            {| info_channel := record;
                               info_parsedChannel := parsedChannel;
                               info_schemaName := schema_name <$> schema;
                               info_schemaEncoding := schema_encoding <$> schema;
                               info_schemaData := schema_data <$> schema |};
                        startTime := startTime st; endTime := endTime st;
                        profile := profile st |}
              | inl error =>
                  ok {| alerts := alerts st ++ [channel_error_alert record error];
                        metadata := metadata st;
                        channelIdsWithErrors :=
                          channelIdsWithErrors st ∪ {[ channel_id record ]};
                        messageCount := messageCount st;
                        messagesByChannel := messagesByChannel st;
                        schemasById := schemasById st;
                        channelInfoById := channelInfoById st;
                        startTime := startTime st; endTime := endTime st;
                        profile := profile st |}
              end
      end
  | RMessage record =>
      let channelId := message_channelId record in
      match JsMap.get (channelInfoById st) channelId,
            JsMap.get (messagesByChannel st) channelId with
      | Some channelInfo, Some messages =>
          let receiveTime := fromNanoSec (message_logTime record) in
          ok {| alerts := alerts st; metadata := metadata st;
                channelIdsWithErrors := channelIdsWithErrors st;
                messageCount := S (messageCount st);
                messagesByChannel :=
                  JsMap.set (messagesByChannel st) channelId
                    (messages ++ [make_event channelInfo record]);
                schemasById := schemasById st;
                channelInfoById := channelInfoById st;
                startTime := next_startTime (startTime st) receiveTime;
                endTime := next_endTime (endTime st) receiveTime;
                profile := profile st |}
      | _, _ =>
          if decide (channelId ∈ channelIdsWithErrors st) then ok st
          else throw (NoPriorChannelInfo channelId)
      end
  end.

(** The records of a chunk go through [processRecord] one by one; the
    first throw ends the run. *)
Fixpoint processRecords (st : State) (records : list TypedMcapRecord) : Throws State :=
  match records with
  | [] => ok st
  | record :: rest =>
      let! st' := processRecord st record in processRecords st' rest
  end.

(** The read loop of [initialize]: one iteration per chunk that
    [streamReader.read()] delivers.  The result carries the chunks that
    were never read. *)
Fixpoint ingest (reader : Reader) (st : State) (stream : list (list Byte.byte))
  : list (list Byte.byte) * Throws State :=
  match stream with
  | [] => ([], ok st)
  | chunk :: rest =>
      let '(records, next) := feed reader chunk in
      match processRecords st records with
      | inl e => (rest, throw e)
      | inr st' =>
          match next with
          | inl reason => (rest, throw (ReaderFailed reason))
          | inr reader' => ingest reader' st' rest
          end
      end
  end.

(** *** Post-processing of [initialize] *)

Record Summary : Type := mkSummary {
  sum_topics : list TopicWithDecodingInfo;
  sum_topicStats : JsMap.t string TopicStats;
  sum_datatypes : JsMap.t string Datatype;
  sum_publishersByTopic : JsMap.t string (gset string)
}.

Definition empty_summary : Summary :=
  {| sum_topics := []; sum_topicStats := JsMap.empty;
     sum_datatypes := JsMap.empty; sum_publishersByTopic := JsMap.empty |}.

(** One iteration of the loop over [channelInfoById.values()]. *)
Definition summarize_channel (st : State) (acc : Summary) (info : ChannelInfo) : Summary :=
  let channel := info_channel info in
  let numMessages := length <$> JsMap.get (messagesByChannel st) (channel_id channel) in
  let publisherId :=
    default (pretty (channel_id channel)) (channel_metadata channel !! "callerid") in
  let publishers :=
    default ∅ (JsMap.get (sum_publishersByTopic acc) (channel_topic channel)) in
  {| sum_topics :=
       sum_topics acc ++
         [ {| topic_name := channel_topic channel;
              topic_messageEncoding := channel_messageEncoding channel;
              topic_schemaName := info_schemaName info;
              topic_schemaData := info_schemaData info;
              topic_schemaEncoding := info_schemaEncoding info |} ];
     sum_topicStats :=
       match numMessages with
       | Some n => JsMap.set (sum_topicStats acc) (channel_topic channel)
                     {| numMessages := n |}
       | None => sum_topicStats acc
       end;
     sum_datatypes :=
       fold_left (λ dts '(name, datatype), JsMap.set dts name datatype)
         (datatypes (info_parsedChannel info)) (sum_datatypes acc);
     sum_publishersByTopic :=
       JsMap.set (sum_publishersByTopic acc) (channel_topic channel)
         (publishers ∪ {[ publisherId ]}) |}.

Definition summarize (st : State) : Summary :=
  fold_left (summarize_channel st) (JsMap.values (channelInfoById st)) empty_summary.

Definition long_duration_alert (start end_ : Time) : PlayerAlert :=
  {| severity := SevWarn;
     alert_message := "This file has an abnormally long duration.";
     alert_tip :=
       Some ("The start " +:+ toRFC3339String start +:+ " and end "
               +:+ toRFC3339String end_ +:+ " are greater than a year.");
     alert_error := None |}.

Definition no_messages_alert : PlayerAlert :=
  {| severity := SevWarn;
     alert_message := "This file contains no messages.";
     alert_tip := None; alert_error := None |}.

Definition unindexed_alert : PlayerAlert :=
  {| severity := SevWarn;
     alert_message :=
       "This file is unindexed. Unindexed files may have degraded performance.";
     alert_tip :=
       Some "See the MCAP spec: https://mcap.dev/specification/index.html#summary-section";
     alert_error := None |}.

Record Initialization : Type := mkInitialization {
  init_start : Time;
  init_end : Time;
  init_topics : list TopicWithDecodingInfo;
  init_datatypes : JsMap.t string Datatype;
  init_profile : option string;
  init_alerts : list PlayerAlert;
  init_publishersByTopic : JsMap.t string (gset string);
  init_topicStats : JsMap.t string TopicStats;
  init_metadata : list Metadata
}.

Definition epoch : Time := {| sec := 0; nsec := 0 |}.

(** Everything after the read loop, given the state the loop left. *)
Definition finish (st : State) : Initialization :=
  let summary := summarize st in
  let start := default epoch (startTime st) in
  let end_ := default epoch (endTime st) in
  let alerts1 :=
    if durationExceeds end_ start DURATION_YEAR_SEC
    then alerts st ++ [long_duration_alert start end_] else alerts st in
  let alerts2 :=
    if decide (messageCount st = 0%nat)
    then alerts1 ++ [no_messages_alert] else alerts1 ++ [unindexed_alert] in
  {| init_start := start; init_end := end_;
     init_topics := sum_topics summary;
     init_datatypes := sum_datatypes summary;
     init_profile := profile st;
     init_alerts := alerts2;
     init_publishersByTopic := sum_publishersByTopic summary;
     init_topicStats := sum_topicStats summary;
     init_metadata := metadata st |}.

(** *** The source object *)

(** [options_stream] holds the chunks that have not been read yet. *)
Record Source : Type := mkSource {
  options_size : Z;
  options_stream : list (list Byte.byte);
  msgEventsByChannel : option (JsMap.t Z (list MessageEvent));
  priv_start : option Time;
  priv_end : option Time
}.

Definition new_source (size : Z) (stream : list (list Byte.byte)) : Source :=
  {| options_size := size; options_stream := stream;
     msgEventsByChannel := None; priv_start := None; priv_end := None |}.

Definition initialize (this : Source) : Source * Throws Initialization :=
  if decide (options_size this > SIZE_LIMIT) then (this, throw SizeLimitExceeded)
  else
    match loadDecompressHandlers with
    | inl reason => (this, throw (DecompressHandlersFailed reason))
    | inr decompressHandlers =>
        match ingest (newReader decompressHandlers) initial_state (options_stream this) with
        | (unread, inl e) =>
            ({| options_size := options_size this; options_stream := unread;
                msgEventsByChannel := msgEventsByChannel this;
                priv_start := priv_start this; priv_end := priv_end this |},
             throw e)
        | (unread, inr st) =>
            let result := finish st in
            ({| options_size := options_size this; options_stream := unread;
                msgEventsByChannel := Some (messagesByChannel st);
                priv_start := Some (init_start result);
                priv_end := Some (init_end result) |}, ok result)
        end
    end.

(** *** Queries *)

Record IteratorResult : Type := mkIteratorResult {
  connectionId : Z;
  msgEvent : MessageEvent
}.

Record MessageIteratorArgs : Type := mkIterArgs {
  iter_topics : gset string;
  iter_start : option Time;
  iter_end : option Time
}.

Record GetBackfillMessagesArgs : Type := mkBackfillArgs {
  backfill_topics : gset string;
  backfill_time : Time
}.

(** Values of the embedding are immutable, so the deep copy of an event
    is the event. *)
Definition structuredClone (msgEvent : MessageEvent) : MessageEvent := msgEvent.

(** [Array.prototype.sort] with a comparator: a stable sort, here by
    insertion from the right end. *)
Fixpoint sort_insert {A} (compareFn : A → A → Z) (x : A) (sorted : list A) : list A :=
  match sorted with
  | [] => [x]
  | y :: rest =>
      if decide (compareFn x y ≤ 0) then x :: sorted
      else y :: sort_insert compareFn x rest
  end.

Definition Array_sort {A} (compareFn : A → A → Z) (array : list A) : list A :=
  foldr (sort_insert compareFn) [] array.

Definition selected (topics : gset string) (start end_ : Time) (msgEvent : MessageEvent) : bool :=
  isTimeInRangeInclusive (receiveTime msgEvent) start end_
    && bool_decide (topic msgEvent ∈ topics).

(** The nested loop of [messageIterator] over the buckets, in [Map]
    order, before the sort. *)
Definition scan (byChannel : JsMap.t Z (list MessageEvent))
    (topics : gset string) (start end_ : Time) : list IteratorResult :=
  flat_map
    (λ '(channelId, msgEvents),
       map (λ msgEvent, {| connectionId := channelId;
                           msgEvent := structuredClone msgEvent |})
           (filter (λ msgEvent, selected topics start end_ msgEvent = true) msgEvents))
    (JsMap.entries byChannel).

Definition by_receiveTime (a b : IteratorResult) : Z :=
  compare (receiveTime (msgEvent a)) (receiveTime (msgEvent b)).

(** The sequence the async generator yields, and the source afterwards. *)
Definition messageIterator (args : MessageIteratorArgs) (this : Source)
  : Source * Throws (list IteratorResult) :=
  match msgEventsByChannel this with
  | None => (this, throw InitializationNotCompleted)
  | Some byChannel =>
      let topics := iter_topics args in
      let start := from_option Some (priv_start this) (iter_start args) in
      let end_ := from_option Some (priv_end this) (iter_end args) in
      match start, end_ with
      | Some start, Some end_ =>
          if decide (size topics = 0%nat) then (this, ok [])
          else (this, ok (Array_sort by_receiveTime (scan byChannel topics start end_)))
      | _, _ => (this, ok [])
      end
  end.

Definition backfill_step (args : GetBackfillMessagesArgs)
    (msgEventsByTopic : JsMap.t string MessageEvent) (msgEvent : MessageEvent)
  : JsMap.t string MessageEvent :=
  if bool_decide (compare (receiveTime msgEvent) (backfill_time args) ≤ 0)
       && bool_decide (topic msgEvent ∈ backfill_topics args)
  then JsMap.set msgEventsByTopic (topic msgEvent) (structuredClone msgEvent)
  else msgEventsByTopic.

Definition getBackfillMessages (args : GetBackfillMessagesArgs) (this : Source)
  : Source * Throws (list MessageEvent) :=
  match msgEventsByChannel this with
  | None => (this, throw InitializationNotCompleted)
  | Some byChannel =>
      let msgEventsByTopic :=
        fold_left
          (λ acc '(_, msgEvents), fold_left (backfill_step args) msgEvents acc)
          (JsMap.entries byChannel) JsMap.empty in
      (this, ok (JsMap.values msgEventsByTopic))
  end.
End Engine.

(** The state of the read loop after the given records, when they go
    through. *)
Definition state_after `{Collaborators} (records : list TypedMcapRecord) : State :=
  match processRecords initial_state records with
  | inr st => st
  | inl _ => initial_state
  end.

(** ** The checks of [McapStreamReader.nextRecord]

    [McapStreamReader] is imported from the mcap package (l.8) and is the
    only caller of [processRecord] (l.181-186).  Besides framing the bytes
    into records, its [nextRecord()] keeps the Header and the Channel
    records it has come to and throws on a second Header record, on a
    Channel record that differs in some field from an earlier one with the
    same id (the new record is kept before the comparison), and on a Message
    record whose channel id has no earlier Channel record.  Every other
    record is handed out as it is; Schema records are not compared.  The
    message of the Header failure is shortened here: the package appends
    both records to it. *)
Record ReaderChecks : Type := mkReaderChecks {
  checks_header : bool;
  checks_channelsById : gmap Z Channel
}.

Definition no_checks : ReaderChecks :=
  {| checks_header := false; checks_channelsById := ∅ |}.

Definition check_record (checks : ReaderChecks) (record : TypedMcapRecord)
  : string + ReaderChecks :=
  match record with
  | RHeader _ _ =>
      if checks_header checks then inl "Duplicate Header record"
      else inr {| checks_header := true;
                  checks_channelsById := checks_channelsById checks |}
  | RChannel c =>
      let existing := checks_channelsById checks !! channel_id c in
      let checks' :=
        {| checks_header := checks_header checks;
           checks_channelsById := <[channel_id c := c]> (checks_channelsById checks) |} in
      match existing with
      | Some previous =>
          if decide (previous = c) then inr checks'
          else inl ("Channel record for id " +:+ pretty (channel_id c)
                      +:+ " (topic: " +:+ channel_topic c
                      +:+ ") differs from previous channel record of the same id.")
      | None => inr checks'
      end
  | RMessage m =>
      match checks_channelsById checks !! message_channelId m with
      | Some _ => inr checks
      | None =>
          inl ("Encountered message on channel " +:+ pretty (message_channelId m)
                 +:+ " without prior channel record")
      end
  | _ => inr checks
  end.

(** The records that pass the checks, up to the first one that does not,
    and the reader's verdict. *)
Fixpoint check_records (checks : ReaderChecks) (records : list TypedMcapRecord)
  : list TypedMcapRecord * (string + ReaderChecks) :=
  match records with
  | [] => ([], inr checks)
  | record :: rest =>
      match check_record checks record with
      | inl reason => ([], inl reason)
      | inr checks' =>
          let '(passed, verdict) := check_records checks' rest in
          (record :: passed, verdict)
      end
  end.

(** The reader with its checks, on top of collaborators whose [feed] only
    frames the bytes into records: a record is checked when it is handed
    out, so a check that throws comes before a later framing failure. *)
Definition McapStreamReader (framing : Collaborators) : Collaborators :=
  {| ParsedChannel := @ParsedChannel framing;
     Datatype := @Datatype framing;
     datatypes := @datatypes framing;
     parseChannel := @parseChannel framing;
     DecompressHandlers := @DecompressHandlers framing;
     loadDecompressHandlers := @loadDecompressHandlers framing;
     Reader := @Reader framing * ReaderChecks;
     newReader := λ decompressHandlers, (@newReader framing decompressHandlers, no_checks);
     feed := λ '(reader, checks) chunk,
       let '(framed, next) := @feed framing reader chunk in
       match check_records checks framed with
       | (passed, inl reason) => (passed, inl reason)
       | (passed, inr checks') =>
           (passed,
            match next with
            | inl reason => inl reason
            | inr reader' => inr (reader', checks')
            end)
       end;
     durationExceeds := @durationExceeds framing;
     toRFC3339String := @toRFC3339String framing |}.

(** ** A small decoder to run the engine on

    Every byte of the stream is the index of a record in a fixed table; a
    byte beyond the table is malformed framing.  The records framed this way
    go through the checks of the reader.  Plan construction fails for the
    message encoding ["bad"] and succeeds for every other one. *)
Module Demo.
(** The framing alone: the records of the bytes of a chunk, up to the first
    malformed byte. *)
Definition frame (table : list TypedMcapRecord) (reader : unit)
    (chunk : list Byte.byte) : list TypedMcapRecord * (string + unit) :=
  foldr
    (λ b '(records, next),
       match table !! Byte.to_nat b with
       | Some record => (record :: records, next)
       | None => ([], inl "invalid opcode")
       end)
    ([], inr tt) chunk.

(** Collaborators that only frame; the engine is never run on them. *)
Definition framing (table : list TypedMcapRecord) : Collaborators :=
  {| ParsedChannel := unit;
     Datatype := unit;
     datatypes := λ _, [];
     parseChannel := λ messageEncoding _,
       if decide (messageEncoding = "bad") then inl "unsupported encoding" else inr ();
     DecompressHandlers := unit;
     loadDecompressHandlers := inr ();
     Reader := unit;
     newReader := λ _, ();
     feed := frame table;
     durationExceeds := λ end_ start limit, bool_decide (sec end_ - sec start > limit);
     toRFC3339String := λ t, pretty (sec t) |}.

(** The collaborators the engine is run on: the framing under the checks of
    the reader. *)
Definition collaborators (table : list TypedMcapRecord) : Collaborators :=
  McapStreamReader (framing table).

Definition schema1 : Schema :=
  {| schema_id := 1; schema_name := "Pose"; schema_encoding := "jsonschema";
     schema_data := [] |}.

Definition channel (id schemaId : Z) (topic encoding : string) : Channel :=
  {| channel_id := id; channel_schemaId := schemaId; channel_topic := topic;
     channel_messageEncoding := encoding; channel_metadata := ∅ |}.

Definition msg (channelId logTime : Z) : Message :=
  {| message_channelId := channelId; message_sequence := 0;
     message_logTime := logTime; message_publishTime := logTime;
     message_data := [] |}.

(** Schema 1, channel 1 on [/a], messages received at 5ns, 1ns and 3ns. *)
Definition table_a : list TypedMcapRecord :=
  [ RSchema schema1; RChannel (channel 1 1 "/a" "json");
    RMessage (msg 1 5); RMessage (msg 1 1); RMessage (msg 1 3) ].

Definition bytes_a : list (list Byte.byte) :=
  [ [Byte.x00; Byte.x01]; [Byte.x02; Byte.x03; Byte.x04] ].

(** Channel 1 fails plan construction; its record then comes back as it
    is, followed by a message on the channel. *)
Definition table_errored : list TypedMcapRecord :=
  [ RChannel (channel 1 0 "/x" "bad"); RChannel (channel 1 0 "/x" "bad");
    RMessage (msg 1 4) ].

Definition bytes_errored : list (list Byte.byte) :=
  [ [Byte.x00; Byte.x01; Byte.x02] ].

(** Channels 1 and 2 both publish on [/t]: two messages on channel 1, one on
    channel 2. *)
Definition table_shared : list TypedMcapRecord :=
  [ RChannel (channel 1 0 "/t" "json"); RChannel (channel 2 0 "/t" "json");
    RMessage (msg 1 1); RMessage (msg 1 2); RMessage (msg 2 3) ].

Definition bytes_shared : list (list Byte.byte) :=
  [ [Byte.x00; Byte.x01; Byte.x02]; [Byte.x03; Byte.x04] ].

(** The info the engine keeps for a schemaless channel. *)
Definition info (table : list TypedMcapRecord) (c : Channel)
  : @ChannelInfo (collaborators table) :=
  @mkChannelInfo (collaborators table) c tt None None None.

(** Schema 1 and channel 1, both repeated as they are, then both with a
    changed field. *)
Definition schema1_renamed : Schema :=
  {| schema_id := 1; schema_name := "Twist"; schema_encoding := "jsonschema";
     schema_data := [] |}.

Definition table_redefined : list TypedMcapRecord :=
  [ RSchema schema1; RChannel (channel 1 1 "/a" "json");
    RSchema schema1; RChannel (channel 1 1 "/a" "json");
    RSchema schema1_renamed; RChannel (channel 1 1 "/b" "json") ].

Definition bytes_schema_redefined : list (list Byte.byte) :=
  [ [Byte.x00; Byte.x01]; [Byte.x04] ].

Definition bytes_channel_redefined : list (list Byte.byte) :=
  [ [Byte.x00; Byte.x01]; [Byte.x02; Byte.x05] ].

(** Channel 2 refers to schema 9, which only comes afterwards. *)
Definition schema9 : Schema :=
  {| schema_id := 9; schema_name := "Late"; schema_encoding := "jsonschema";
     schema_data := [] |}.

Definition table_late_schema : list TypedMcapRecord :=
  [ RChannel (channel 2 9 "/c" "json"); RSchema schema9 ].

Definition bytes_late_schema : list (list Byte.byte) := [ [Byte.x00; Byte.x01] ].

(** Channels 1 and 2 both publish on [/t]; the file is in log-time order,
    with the message of channel 2 before the message of channel 1. *)
Definition table_interleaved : list TypedMcapRecord :=
  [ RChannel (channel 1 0 "/t" "json"); RChannel (channel 2 0 "/t" "json");
    RMessage (msg 2 1); RMessage (msg 1 2) ].

Definition bytes_interleaved : list (list Byte.byte) :=
  [ [Byte.x00; Byte.x01; Byte.x02; Byte.x03] ].

(** A Header record and two Metadata records, then the start of the
    stream of [table_a]. *)
Definition table_headers : list TypedMcapRecord :=
  [ RHeader "ros1" "writer"; RMetadata "calibration" {[ "camera" := "front" ]};
    RMetadata "vehicle" {[ "plate" := "M-1" ]}; RSchema schema1;
    RChannel (channel 1 1 "/a" "json"); RMessage (msg 1 5) ].

Definition bytes_headers : list (list Byte.byte) :=
  [ [Byte.x00; Byte.x01; Byte.x02]; [Byte.x03; Byte.x04; Byte.x05] ].

(** The stream of [table_a] with a malformed byte after the second
    message. *)
Definition bytes_truncated : list (list Byte.byte) :=
  [ [Byte.x00; Byte.x01]; [Byte.x02; Byte.x03; Byte.xff; Byte.x04]; [Byte.x04] ].

(** A framing like [framing] whose decoding plans carry a datatype table:
    the message encoding under the name ["Header"] and under its own
    name. *)
Definition typed_framing (table : list TypedMcapRecord) : Collaborators :=
  {| ParsedChannel := list (string * string);
     Datatype := string;
     datatypes := λ parsed, parsed;
     parseChannel := λ messageEncoding _,
       if decide (messageEncoding = "bad") then inl "unsupported encoding"
       else inr [("Header", messageEncoding); (messageEncoding, messageEncoding)];
     DecompressHandlers := unit;
     loadDecompressHandlers := inr ();
     Reader := unit;
     newReader := λ _, ();
     feed := frame table;
     durationExceeds := λ end_ start limit, bool_decide (sec end_ - sec start > limit);
     toRFC3339String := λ t, pretty (sec t) |}.

Definition typed_collaborators (table : list TypedMcapRecord) : Collaborators :=
  McapStreamReader (typed_framing table).

(** Two channels on [/t], the first with a [callerid], with different
    message encodings. *)
Definition talker : Channel :=
  {| channel_id := 1; channel_schemaId := 0; channel_topic := "/t";
     channel_messageEncoding := "json";
     channel_metadata := {[ "callerid" := "/talker" ]} |}.

Definition table_publishers : list TypedMcapRecord :=
  [ RChannel talker; RChannel (channel 2 0 "/t" "cdr"); RMessage (msg 2 1) ].

Definition bytes_publishers : list (list Byte.byte) :=
  [ [Byte.x00; Byte.x01; Byte.x02] ].

(** A message on channel 7, which no record announced: the reader throws
    on it. *)
Definition table_orphan : list TypedMcapRecord := [ RMessage (msg 7 1) ].

Definition bytes_orphan : list (list Byte.byte) := [ [Byte.x00] ].
End Demo.

(** * Vocabulary of the properties *)

(** ** The order on [Time] that [compare] induces *)

Definition time_le (a b : Time) : Prop := compare a b ≤ 0.

Definition toNanoSec (t : Time) : Z := sec t * 1000000000 + nsec t.

Definition normalized (t : Time) : Prop := 0 ≤ nsec t < 1000000000.

(** The order a comparator induces. *)
Definition cmp_le {A} (compareFn : A → A → Z) (x y : A) : Prop := compareFn x y ≤ 0.

#[global] Instance cmp_le_dec {A} (compareFn : A → A → Z) x y :
  Decision (cmp_le compareFn x y).
Proof. unfold cmp_le. apply _. Defined.
#[global] Typeclasses Opaque cmp_le.

(** ** Stores and runs *)

(** All the events of the buckets, each with the id of its channel, in
    [Map] order. *)
Definition stored (byChannel : JsMap.t Z (list MessageEvent)) : list IteratorResult :=
  flat_map (λ '(channelId, msgEvents), mkIteratorResult channelId <$> msgEvents)
    (JsMap.entries byChannel).

(** The events of the buckets in the order in which the nested loop of
    [getBackfillMessages] visits them. *)
Definition scan_order (byChannel : JsMap.t Z (list MessageEvent)) : list MessageEvent :=
  flat_map snd (JsMap.entries byChannel).

Section Vocabulary.
Context `{Collaborators}.

(** What holds of every state the read loop reaches: the registry and the
    buckets have the same keys, in the same order; no id is both registered
    and errored; every stored event carries the topic of its channel and
    lies within the running time bounds; the count is the number of stored
    events. *)
Record Inv (st : State) : Prop := {
  inv_keys : JsMap.keys (messagesByChannel st) = JsMap.keys (channelInfoById st);
  inv_nodup : NoDup (JsMap.keys (channelInfoById st));
  inv_disjoint : ∀ id,
    id ∈ channelIdsWithErrors st → JsMap.get (channelInfoById st) id = None;
  inv_id : ∀ id info,
    JsMap.get (channelInfoById st) id = Some info → channel_id (info_channel info) = id;
  inv_topic : ∀ r, r ∈ stored (messagesByChannel st) →
    ∃ info, JsMap.get (channelInfoById st) (connectionId r) = Some info
            ∧ topic (msgEvent r) = channel_topic (info_channel info);
  inv_start : ∀ r, r ∈ stored (messagesByChannel st) →
    ∃ t, startTime st = Some t ∧ time_le t (receiveTime (msgEvent r));
  inv_end : ∀ r, r ∈ stored (messagesByChannel st) →
    ∃ t, endTime st = Some t ∧ time_le (receiveTime (msgEvent r)) t;
  inv_count : messageCount st = length (stored (messagesByChannel st))
}.

(** What a later state keeps from an earlier one: registered channels,
    errored ids and schemas are never taken back. *)
Record extends (st st' : State) : Prop := {
  ext_info : ∀ id info,
    JsMap.get (channelInfoById st) id = Some info →
    JsMap.get (channelInfoById st') id = Some info;
  ext_errored : channelIdsWithErrors st ⊆ channelIdsWithErrors st';
  ext_schema : ∀ id s, schemasById st !! id = Some s → schemasById st' !! id = Some s
}.

(** The decoder's view of the stream: all the records the reader hands out over the whole stream, up to its
    first failure, and that failure. *)
Fixpoint decode_all (reader : Reader) (stream : list (list Byte.byte))
  : list TypedMcapRecord * option string :=
  match stream with
  | [] => ([], None)
  | chunk :: rest =>
      let '(records, next) := feed reader chunk in
      match next with
      | inl reason => (records, Some reason)
      | inr reader' =>
          let '(more, failure) := decode_all reader' rest in
          (records ++ more, failure)
      end
  end.

(** The records the decoder hands out for the stream of a source. *)
Definition records_of (this : Source) : list TypedMcapRecord :=
  match loadDecompressHandlers with
  | inl _ => []
  | inr decompressHandlers =>
      fst (decode_all (newReader decompressHandlers) (options_stream this))
  end.

(** [initialize] throws, and leaves the source without buckets to query. *)
Definition fails (this : Source) : Prop :=
  ∃ e, snd (initialize this) = inl e
       ∧ msgEventsByChannel (fst (initialize this)) = msgEventsByChannel this.

(** The errors [processRecord] throws are the four structural ones. *)
Definition structural (e : Error) : Prop :=
  match e with
  | DifferingSchemas _ | DifferingChannelInfos _
  | NoPriorSchema _ | NoPriorChannelInfo _ => True
  | _ => False
  end.

(** The events a backfill query may keep. *)
Definition qualifies (args : GetBackfillMessagesArgs) (msgEvent : MessageEvent) : Prop :=
  compare (receiveTime msgEvent) (backfill_time args) ≤ 0
  ∧ topic msgEvent ∈ backfill_topics args.

(** The events of the Message records that went into a bucket: those whose
    channel is registered in [st], each built from the channel info there. *)
Definition ingested_in (st : State) (records : list TypedMcapRecord) : list IteratorResult :=
  flat_map
    (λ record,
       match record with
       | RMessage m =>
           match JsMap.get (channelInfoById st) (message_channelId m) with
           | Some info => [ {| connectionId := message_channelId m;
                               msgEvent := make_event info m |} ]
           | None => []
           end
       | _ => []
       end)
    records.

(** The ingested message events of a stream of records. *)
Definition ingested (records : list TypedMcapRecord) : list IteratorResult :=
  ingested_in (state_after records) records.

(** The topics of the initialization result, as a topic selection. *)
Definition full_topics (init : Initialization) : gset string :=
  list_to_set (topic_name <$> init_topics init).

(** [a] is received no later than [b]. *)
Definition receive_order (a b : IteratorResult) : Prop :=
  time_le (receiveTime (msgEvent a)) (receiveTime (msgEvent b)).

(** The number of messages in the buckets of the given channels. *)
Definition bucket_sizes (st : State) (infos : list ChannelInfo) : nat :=
  sum_list_with
    (λ info, length (default [] (JsMap.get (messagesByChannel st)
                                   (channel_id (info_channel info)))))
    infos.

(** Every registered channel is schemaless or has its schema in the
    registry. *)
Definition Resolved (st : State) : Prop :=
  ∀ id info, JsMap.get (channelInfoById st) id = Some info →
    channel_schemaId (info_channel info) = 0
    ∨ is_Some (schemasById st !! channel_schemaId (info_channel info)).
End Vocabulary.

(** The channel publishes on topic [name]. *)
Definition on_topic `{Collaborators} (name : string) (info : ChannelInfo) : Prop :=
  channel_topic (info_channel info) = name.

#[global] Instance on_topic_dec `{Collaborators} name info : Decision (on_topic name info).
Proof. unfold on_topic. apply _. Defined.
#[global] Typeclasses Opaque on_topic.

(** The events a backfill query may keep for topic [name]. *)
Definition qualifies_on (args : GetBackfillMessagesArgs) (name : string)
    (msgEvent : MessageEvent) : Prop :=
  qualifies args msgEvent ∧ topic msgEvent = name.

#[global] Instance qualifies_dec args msgEvent : Decision (qualifies args msgEvent).
Proof. unfold qualifies. apply _. Defined.

#[global] Instance qualifies_on_dec args name msgEvent :
  Decision (qualifies_on args name msgEvent).
Proof. unfold qualifies_on. apply _. Defined.
#[global] Typeclasses Opaque qualifies qualifies_on.

(** The map of the loop is keyed by the topic of its events, each topic
    once. *)
Definition by_topic (m : JsMap.t string MessageEvent) : Prop :=
  NoDup (JsMap.keys m) ∧ Forall (λ '(name, msgEvent), topic msgEvent = name) m.

(** ** Vocabulary of the further properties *)

(** The profiles of the Header records, in file order. *)
Definition header_profiles (records : list TypedMcapRecord) : list string :=
  omap (λ record, match record with RHeader p _ => Some p | _ => None end) records.

(** The Metadata records, in file order, as [initialize] returns them. *)
Definition metadata_records (records : list TypedMcapRecord) : list Metadata :=
  omap (λ record,
          match record with
          | RMetadata name md => Some {| metadata_name := name; metadata_metadata := md |}
          | _ => None
          end) records.

(** The Message records on channel [id], in file order. *)
Definition messages_on (id : Z) (records : list TypedMcapRecord) : list Message :=
  omap (λ record,
          match record with
          | RMessage m => if decide (message_channelId m = id) then Some m else None
          | _ => None
          end) records.

(** The event is received within [start, end] on one of the topics. *)
Definition in_selection (topics : gset string) (start end_ : Time)
    (r : IteratorResult) : Prop :=
  time_le start (receiveTime (msgEvent r))
  ∧ time_le (receiveTime (msgEvent r)) end_
  ∧ topic (msgEvent r) ∈ topics.

#[global] Instance in_selection_dec topics start end_ r :
  Decision (in_selection topics start end_ r).
Proof. unfold in_selection, time_le. apply _. Defined.
#[global] Typeclasses Opaque in_selection.

#[global] Instance Severity_eq_dec : EqDecision Severity.
Proof. solve_decision. Defined.

Section FurtherVocabulary.
Context `{Collaborators}.

(** The entry of the topic list for a registered channel. *)
Definition topic_of_info (info : ChannelInfo) : TopicWithDecodingInfo :=
  {| topic_name := channel_topic (info_channel info);
     topic_messageEncoding := channel_messageEncoding (info_channel info);
     topic_schemaName := info_schemaName info;
     topic_schemaData := info_schemaData info;
     topic_schemaEncoding := info_schemaEncoding info |}.

(** The publisher identity of a channel: its [callerid] metadata, or its id
    as a string. *)
Definition publisher_of (info : ChannelInfo) : string :=
  default (pretty (channel_id (info_channel info)))
          (channel_metadata (info_channel info) !! "callerid").

(** The entries of the datatype tables of the channels, in the order in
    which the post-processing loop writes them. *)
Definition all_datatypes (infos : list ChannelInfo) : list (string * Datatype) :=
  flat_map (λ info, datatypes (info_parsedChannel info)) infos.

(** A channel id the run has seen a Channel record for: registered or
    errored. *)
Definition known (st : State) (id : Z) : Prop :=
  is_Some (JsMap.get (channelInfoById st) id) ∨ id ∈ channelIdsWithErrors st.

(** A registered channel carries what the registry has for its schema
    id. *)
Definition Bound (st : State) : Prop :=
  ∀ id info, JsMap.get (channelInfoById st) id = Some info →
    channel_schemaId (info_channel info) ≠ 0 →
    ∃ s, schemasById st !! channel_schemaId (info_channel info) = Some s
         ∧ info_schemaName info = Some (schema_name s)
         ∧ info_schemaEncoding info = Some (schema_encoding s)
         ∧ info_schemaData info = Some (schema_data s).

(** More of what holds of every state the read loop reaches: the time
    bounds are receive times of stored events and are unset only when
    nothing is stored; every stored event carries the schema name of its
    channel; the alerts are one error alert per errored channel id. *)
Record Inv_more (st : State) : Prop := {
  more_start : ∀ t, startTime st = Some t →
    ∃ r, r ∈ stored (messagesByChannel st) ∧ receiveTime (msgEvent r) = t;
  more_end : ∀ t, endTime st = Some t →
    ∃ r, r ∈ stored (messagesByChannel st) ∧ receiveTime (msgEvent r) = t;
  more_unset : stored (messagesByChannel st) = [] →
    startTime st = None ∧ endTime st = None;
  more_schemaName : ∀ r, r ∈ stored (messagesByChannel st) →
    ∃ info, JsMap.get (channelInfoById st) (connectionId r) = Some info
            ∧ schemaName (msgEvent r) = default "" (info_schemaName info);
  more_alerts : Forall (λ alert, severity alert = SevError) (alerts st);
  more_errored : length (alerts st) = size (channelIdsWithErrors st)
}.


End FurtherVocabulary.

(** * Properties *)

(** ** The order on [Time] that [compare] induces *)

(** Goals about [compare] reduce to linear arithmetic on the two fields. *)
Ltac time_order :=
  unfold time_le, compare in *; simpl in *; repeat case_decide; lia.

Lemma compare_refl a : compare a a = 0.
Proof. unfold compare; simpl. case_decide; lia. Qed.

Lemma time_le_refl a : time_le a a.
Proof. unfold time_le. rewrite compare_refl. lia. Qed.

Lemma time_le_trans a b c : time_le a b → time_le b c → time_le a c.
Proof.
  unfold time_le, compare; simpl.
  repeat case_decide; lia.
Qed.

Lemma time_le_total a b : time_le a b ∨ time_le b a.
Proof.
  unfold time_le, compare; simpl.
  repeat case_decide; lia.
Qed.

Lemma compare_gt_le a b : ¬ compare a b ≤ 0 → time_le b a.
Proof.
  unfold time_le, compare; simpl.
  repeat case_decide; lia.
Qed.

(** On normalized times the order is the order of the nanosecond counts. *)
Lemma time_le_toNanoSec a b :
  normalized a → normalized b → (time_le a b ↔ toNanoSec a ≤ toNanoSec b).
Proof.
  unfold normalized, time_le, toNanoSec, compare; simpl.
  intros Ha Hb. case_decide; split; nia.
Qed.

Lemma fromNanoSec_normalized ns : 0 ≤ ns → normalized (fromNanoSec ns).
Proof.
  intros Hns. unfold normalized, fromNanoSec; simpl.
  rewrite Z.rem_mod_nonneg by lia.
  apply Z.mod_pos_bound. lia.
Qed.

(** Receive times of messages are ordered as their log times. *)
Lemma time_le_fromNanoSec a b :
  0 ≤ a → 0 ≤ b → (time_le (fromNanoSec a) (fromNanoSec b) ↔ a ≤ b).
Proof.
  intros Ha Hb. rewrite time_le_toNanoSec by (by apply fromNanoSec_normalized).
  unfold toNanoSec, fromNanoSec; simpl.
  pose proof (Z.quot_rem' a 1000000000). pose proof (Z.quot_rem' b 1000000000). lia.
Qed.

Lemma toNanoSec_fromNanoSec ns : toNanoSec (fromNanoSec ns) = ns.
Proof.
  unfold toNanoSec, fromNanoSec; simpl.
  pose proof (Z.quot_rem' ns 1000000000). lia.
Qed.

Lemma isTimeInRangeInclusive_spec t start end_ :
  isTimeInRangeInclusive t start end_ = true ↔ time_le start t ∧ time_le t end_.
Proof.
  unfold isTimeInRangeInclusive, time_le.
  destruct (bool_decide_reflect (compare start t > 0)) as [H1|H1];
    destruct (bool_decide_reflect (compare end_ t < 0)) as [H2|H2]; simpl;
    unfold compare in *; simpl in *; repeat case_decide;
    (split; [try discriminate; intros _; lia | intros [? ?]; try reflexivity; lia]).
Qed.

(** ** Insertion-ordered maps *)

Section JsMapFacts.
Context {K V : Type} `{EqDecision K}.
Implicit Types (m : JsMap.t K V) (k : K) (v : V).

Lemma get_set_eq m k v : JsMap.get (JsMap.set m k v) k = Some v.
Proof.
  induction m as [|[k' v'] m IH]; simpl.
  - by rewrite decide_True.
  - destruct (decide (k = k')) as [->|Hne]; simpl.
    + by rewrite decide_True.
    + by rewrite decide_False.
Qed.

Lemma get_set_ne m k k' v : k ≠ k' → JsMap.get (JsMap.set m k v) k' = JsMap.get m k'.
Proof.
  intros Hne. induction m as [|[k0 v0] m IH]; simpl.
  - by rewrite decide_False.
  - destruct (decide (k = k0)) as [->|Hk]; simpl.
    + by rewrite !decide_False.
    + by rewrite IH.
Qed.

Lemma get_None_keys m k : JsMap.get m k = None ↔ k ∉ JsMap.keys m.
Proof.
  induction m as [|[k' v'] m IH]; simpl.
  - split; [intros _; apply not_elem_of_nil | done].
  - rewrite not_elem_of_cons. destruct (decide (k = k')) as [->|Hne].
    + split; [done | intros [? _]; done].
    + rewrite IH. tauto.
Qed.

Lemma get_Some_elem_of m k v : JsMap.get m k = Some v → (k, v) ∈ m.
Proof.
  induction m as [|[k' v'] m IH]; simpl; [done|].
  destruct (decide (k = k')) as [->|Hne].
  - intros [= ->]. left.
  - intros Hg. right. by apply IH.
Qed.

Lemma elem_of_get m k v : NoDup (JsMap.keys m) → (k, v) ∈ m → JsMap.get m k = Some v.
Proof.
  induction m as [|[k' v'] m IH]; simpl.
  - intros _ Hin. by apply elem_of_nil in Hin.
  - rewrite NoDup_cons. intros [Hk Hnd] Hin.
    apply elem_of_cons in Hin as [[= -> ->]|Hin].
    + by rewrite decide_True.
    + rewrite decide_False; [by apply IH|].
      intros ->. apply Hk. unfold JsMap.keys.
      apply list_elem_of_fmap. by exists (k', v).
Qed.

(** A new key goes to the end. *)
Lemma set_fresh m k v : JsMap.get m k = None → JsMap.set m k v = m ++ [(k, v)].
Proof.
  induction m as [|[k' v'] m IH]; simpl; [done|].
  destruct (decide (k = k')) as [->|Hne]; [done|].
  intros Hg. by rewrite IH.
Qed.

(** A key that is present keeps its place. *)
Lemma set_present m k v v0 :
  JsMap.get m k = Some v0 →
  ∃ m1 m2, m = m1 ++ (k, v0) :: m2 ∧ JsMap.set m k v = m1 ++ (k, v) :: m2
           ∧ k ∉ JsMap.keys m1.
Proof.
  induction m as [|[k' v'] m IH]; simpl; [done|].
  destruct (decide (k = k')) as [->|Hne].
  - intros [= ->]. exists [], m. split_and!; [done..|apply not_elem_of_nil].
  - intros Hg. destruct (IH Hg) as (m1 & m2 & -> & -> & Hk).
    exists ((k', v') :: m1), m2. split_and!; [done..|].
    simpl. rewrite not_elem_of_cons. done.
Qed.

Lemma keys_set_present m k v : is_Some (JsMap.get m k) → JsMap.keys (JsMap.set m k v) = JsMap.keys m.
Proof.
  intros [v0 Hg]. destruct (set_present m k v v0 Hg) as (m1 & m2 & -> & -> & _).
  unfold JsMap.keys. by rewrite !map_app.
Qed.

Lemma keys_set_fresh m k v : JsMap.get m k = None → JsMap.keys (JsMap.set m k v) = JsMap.keys m ++ [k].
Proof. intros Hg. rewrite set_fresh by done. unfold JsMap.keys. by rewrite map_app. Qed.
End JsMapFacts.

(** ** The stable sort *)

Section SortFacts.
Context {A : Type} (compareFn : A → A → Z).

Hypothesis cmp_total : ∀ x y, (cmp_le compareFn) x y ∨ (cmp_le compareFn) y x.
Hypothesis cmp_trans : ∀ x y z, (cmp_le compareFn) x y → (cmp_le compareFn) y z → (cmp_le compareFn) x z.

Lemma sort_insert_perm x l : sort_insert compareFn x l ≡ₚ x :: l.
Proof.
  induction l as [|y l IH]; simpl; [done|].
  case_decide; [done|].
  rewrite IH. apply perm_swap.
Qed.

Lemma Array_sort_perm l : Array_sort compareFn l ≡ₚ l.
Proof.
  induction l as [|x l IH]; simpl; [done|].
  rewrite sort_insert_perm. by rewrite IH.
Qed.

Lemma sort_insert_sorted x l :
  StronglySorted (cmp_le compareFn) l → StronglySorted (cmp_le compareFn) (sort_insert compareFn x l).
Proof.
  induction 1 as [|y l Hl IH Hy]; simpl.
  - repeat constructor.
  - case_decide as Hxy.
    + constructor; [by constructor|].
      constructor; [done|].
      eapply Forall_impl; [exact Hy|]. intros z Hz. by eapply cmp_trans.
    + constructor; [done|].
      rewrite sort_insert_perm. constructor; [|done].
      destruct (cmp_total x y); [done|done].
Qed.

Lemma Array_sort_sorted l : StronglySorted (cmp_le compareFn) (Array_sort compareFn l).
Proof.
  induction l as [|x l IH]; simpl; [constructor|].
  by apply sort_insert_sorted.
Qed.

(** Stability: elements that pass a test compatible with the order keep
    their relative order. *)
Lemma sort_insert_filter (P : A → Prop) `{∀ x, Decision (P x)} x l :
  (∀ y, y ∈ l → P x → P y → (cmp_le compareFn) x y) →
  filter P (sort_insert compareFn x l) = filter P (x :: l).
Proof.
  induction l as [|y l IH]; simpl; intros Hle; [done|].
  case_decide as Hxy; [done|].
  rewrite filter_cons. rewrite IH.
  2:{ intros z Hz. apply Hle. by right. }
  rewrite !filter_cons.
  destruct (decide (P y)) as [Hy|Hy]; [|done].
  destruct (decide (P x)) as [Hx|Hx]; [|done].
  exfalso. apply Hxy. apply Hle; [left|done..].
Qed.

(** Elements that compare equal to [a] come out in the order in which they
    went in. *)
Lemma Array_sort_stable a l :
  filter (λ y, (cmp_le compareFn) a y ∧ (cmp_le compareFn) y a) (Array_sort compareFn l) =
  filter (λ y, (cmp_le compareFn) a y ∧ (cmp_le compareFn) y a) l.
Proof.
  induction l as [|x l IH]; [done|].
  cbn [Array_sort foldr]. rewrite sort_insert_filter.
  - rewrite !filter_cons. fold (Array_sort compareFn l). by rewrite IH.
  - intros y _ [_ Hxa] [Hay _]. by eapply cmp_trans.
Qed.
End SortFacts.

(** ** Reachable states of the read loop *)

Section Invariant.
Context `{Collaborators}.

Lemma Inv_initial : Inv initial_state.
Proof.
  split; simpl; try done.
  - constructor.
  - intros r Hr. by apply elem_of_nil in Hr.
  - intros r Hr. by apply elem_of_nil in Hr.
  - intros r Hr. by apply elem_of_nil in Hr.
Qed.

Lemma stored_app m1 m2 : stored (m1 ++ m2) = stored m1 ++ stored m2.
Proof. unfold stored, JsMap.entries. apply flat_map_app. Qed.

Lemma stored_set_fresh m id :
  JsMap.get m id = None → stored (JsMap.set m id []) = stored m.
Proof.
  intros Hg. rewrite set_fresh by done. rewrite stored_app. simpl.
  by rewrite app_nil_r.
Qed.

Lemma stored_push m id evs e :
  JsMap.get m id = Some evs →
  stored (JsMap.set m id (evs ++ [e])) ≡ₚ stored m ++ [mkIteratorResult id e].
Proof.
  intros Hg. destruct (set_present m id (evs ++ [e]) evs Hg) as (m1 & m2 & -> & -> & _).
  rewrite !stored_app. unfold stored at 2 4. simpl.
  rewrite fmap_app. simpl.
  rewrite <- !app_assoc. apply Permutation_app_head.
  apply Permutation_app_head.
  apply Permutation_app_comm.
Qed.

Lemma next_startTime_le o t :
  ∃ s, next_startTime o t = Some s ∧ time_le s t
       ∧ ∀ s0, o = Some s0 → time_le s s0.
Proof.
  destruct o as [s0|]; simpl.
  - unfold isLessThan. case_bool_decide as Hlt.
    + exists t. split_and!; [done|apply time_le_refl|].
      intros ? [= <-]. time_order.
    + exists s0. split_and!; [done|time_order|].
      intros ? [= <-]. apply time_le_refl.
  - exists t. split_and!; [done|apply time_le_refl|done].
Qed.

Lemma next_endTime_le o t :
  ∃ s, next_endTime o t = Some s ∧ time_le t s
       ∧ ∀ s0, o = Some s0 → time_le s0 s.
Proof.
  destruct o as [s0|]; simpl.
  - unfold isGreaterThan. case_bool_decide as Hgt.
    + exists t. split_and!; [done|apply time_le_refl|].
      intros ? [= <-]. time_order.
    + exists s0. split_and!; [done|time_order|].
      intros ? [= <-]. apply time_le_refl.
  - exists t. split_and!; [done|apply time_le_refl|done].
Qed.

(** The invariant only reads the registry, the buckets, the errored set,
    the bounds and the count. *)
Lemma Inv_ext st st' :
  messagesByChannel st' = messagesByChannel st →
  channelInfoById st' = channelInfoById st →
  channelIdsWithErrors st' = channelIdsWithErrors st →
  startTime st' = startTime st →
  endTime st' = endTime st →
  messageCount st' = messageCount st →
  Inv st → Inv st'.
Proof.
  intros E1 E2 E3 E4 E5 E6 [I1 I2 I3 I4 I5 I6 I7 I8].
  split; rewrite ?E1, ?E2, ?E3, ?E4, ?E5, ?E6; done.
Qed.

Lemma Inv_get_messages st id :
  Inv st →
  JsMap.get (messagesByChannel st) id = None ↔ JsMap.get (channelInfoById st) id = None.
Proof. intros Hinv. rewrite !get_None_keys. by rewrite (inv_keys _ Hinv). Qed.

Lemma elem_of_stored m r :
  r ∈ stored m ↔ ∃ evs, (connectionId r, evs) ∈ m ∧ msgEvent r ∈ evs.
Proof.
  unfold stored, JsMap.entries. rewrite list_elem_of_In, in_flat_map. split.
  - intros ([id evs] & Hin & Hr). apply list_elem_of_In in Hin, Hr.
    apply list_elem_of_fmap in Hr as (e & -> & He). simpl. eauto.
  - intros (evs & Hin & He). exists (connectionId r, evs).
    rewrite <- !list_elem_of_In. split; [done|].
    apply list_elem_of_fmap. exists (msgEvent r). split; [by destruct r|done].
Qed.

Lemma Inv_processRecord st record st' :
  Inv st → processRecord st record = inr st' → Inv st'.
Proof.
  intros Hinv. destruct record as [p l|name md|s|c|m|ty]; simpl.
  - intros [= <-]. by eapply Inv_ext; [..|exact Hinv].
  - intros [= <-]. by eapply Inv_ext; [..|exact Hinv].
  - destruct (schemasById st !! schema_id s) as [existing|];
      [case_decide; [|done]|]; intros [= <-];
      by eapply Inv_ext; [..|exact Hinv].
  - destruct (JsMap.get (channelInfoById st) (channel_id c)) as [existing|] eqn:Hget.
    { case_decide; [|done]. by intros [= <-]. }
    case_decide as Herr; [by intros [= <-]|].
    case_decide as Hschema; [done|].
    destruct (parseChannel _ _) as [error|parsed]; intros [= <-].
    + (* the channel is marked as errored *)
      destruct Hinv as [I1 I2 I3 I4 I5 I6 I7 I8]. split; simpl; try done.
      intros id [Hid|Hid%elem_of_singleton]%elem_of_union; [by apply I3|by subst].
    + (* the channel is registered *)
      pose proof (proj2 (Inv_get_messages st (channel_id c) Hinv) Hget) as Hmsgs.
      destruct Hinv as [I1 I2 I3 I4 I5 I6 I7 I8]. split; simpl.
      * rewrite !keys_set_fresh by done. by rewrite I1.
      * rewrite keys_set_fresh by done. apply NoDup_app. split_and!; [done| |].
        -- intros k Hk ->%list_elem_of_singleton. by apply get_None_keys in Hget.
        -- apply NoDup_singleton.
      * intros id Hid. rewrite get_set_ne; [by apply I3|]. by intros <-.
      * intros id info. destruct (decide (channel_id c = id)) as [<-|Hne].
        -- rewrite get_set_eq. by intros [= <-].
        -- rewrite get_set_ne by done. apply I4.
      * rewrite stored_set_fresh by done. intros r Hr.
        destruct (I5 r Hr) as (info & Hinfo & Htopic). exists info. split; [|done].
        rewrite get_set_ne; [done|]. intros Heq. congruence.
      * by rewrite stored_set_fresh.
      * by rewrite stored_set_fresh.
      * by rewrite stored_set_fresh.
  - destruct (JsMap.get (channelInfoById st) (message_channelId m)) as [info|] eqn:Hinfo;
      [destruct (JsMap.get (messagesByChannel st) (message_channelId m)) as [evs|] eqn:Hevs|].
    2,3: case_decide; [by intros [= <-]|done].
    intros [= <-].
    pose proof (stored_push _ _ _ (make_event info m) Hevs) as Hperm.
    destruct Hinv as [I1 I2 I3 I4 I5 I6 I7 I8]. split; simpl; try done.
    + rewrite keys_set_present; [done|by eexists].
    + intros r Hr. rewrite Hperm in Hr.
      apply elem_of_app in Hr as [Hr|Hr%list_elem_of_singleton]; [by apply I5|].
      subst r. simpl. eauto.
    + intros r Hr. rewrite Hperm in Hr.
      destruct (next_startTime_le (startTime st) (fromNanoSec (message_logTime m)))
        as (s & -> & Hs & Hold).
      exists s. split; [done|].
      apply elem_of_app in Hr as [Hr|Hr%list_elem_of_singleton].
      * destruct (I6 r Hr) as (t & Ht & Hle). eapply time_le_trans; [by apply Hold|done].
      * by subst r.
    + intros r Hr. rewrite Hperm in Hr.
      destruct (next_endTime_le (endTime st) (fromNanoSec (message_logTime m)))
        as (s & -> & Hs & Hold).
      exists s. split; [done|].
      apply elem_of_app in Hr as [Hr|Hr%list_elem_of_singleton].
      * destruct (I7 r Hr) as (t & Ht & Hle). eapply time_le_trans; [done|by apply Hold].
      * by subst r.
    + rewrite Hperm, length_app. simpl. lia.
  - by intros [= <-].
Qed.
End Invariant.

(** ** Runs of [processRecord] *)

Section Runs.
Context `{Collaborators}.

Lemma extends_refl st : extends st st.
Proof. by split. Qed.

Lemma extends_trans st1 st2 st3 : extends st1 st2 → extends st2 st3 → extends st1 st3.
Proof.
  intros [A1 A2 A3] [B1 B2 B3]. split; [naive_solver|set_solver|naive_solver].
Qed.

Lemma extends_processRecord st record st' :
  processRecord st record = inr st' → extends st st'.
Proof.
  destruct record as [p l|name md|s|c|m|ty]; simpl.
  - intros [= <-]. by split.
  - intros [= <-]. by split.
  - destruct (schemasById st !! schema_id s) as [existing|] eqn:Hex;
      [case_decide as Heq; [|done]|]; intros [= <-]; split; simpl; try done.
    + intros id s'. destruct (decide (schema_id s = id)) as [<-|Hne].
      * rewrite lookup_insert_eq. congruence.
      * by rewrite lookup_insert_ne.
    + intros id s'. destruct (decide (schema_id s = id)) as [<-|Hne].
      * congruence.
      * by rewrite lookup_insert_ne.
  - destruct (JsMap.get (channelInfoById st) (channel_id c)) as [existing|] eqn:Hget.
    { case_decide; [|done]. intros [= <-]. apply extends_refl. }
    case_decide as Herr; [intros [= <-]; apply extends_refl|].
    case_decide as Hschema; [done|].
    destruct (parseChannel _ _) as [error|parsed]; intros [= <-]; split; simpl; try done.
    + set_solver.
    + intros id info Hinfo. rewrite get_set_ne; [done|]. intros <-. congruence.
  - destruct (JsMap.get (channelInfoById st) (message_channelId m)) as [info|];
      [destruct (JsMap.get (messagesByChannel st) (message_channelId m)) as [evs|]|].
    2,3: case_decide; [intros [= <-]; apply extends_refl|done].
    intros [= <-]. by split.
  - intros [= <-]. apply extends_refl.
Qed.

Lemma processRecords_app st rs1 rs2 :
  processRecords st (rs1 ++ rs2) =
  let! st' := processRecords st rs1 in processRecords st' rs2.
Proof.
  revert st. induction rs1 as [|r rs1 IH]; intros st; simpl; [done|].
  destruct (processRecord st r) as [e|st1]; simpl; [done|]. apply IH.
Qed.

Lemma processRecords_cons_inv st r rs st' :
  processRecords st (r :: rs) = inr st' →
  ∃ st1, processRecord st r = inr st1 ∧ processRecords st1 rs = inr st'.
Proof. simpl. destruct (processRecord st r) as [e|st1]; simpl; [done|eauto]. Qed.

Lemma processRecords_app_inv st rs1 rs2 st' :
  processRecords st (rs1 ++ rs2) = inr st' →
  ∃ st1, processRecords st rs1 = inr st1 ∧ processRecords st1 rs2 = inr st'.
Proof.
  rewrite processRecords_app.
  destruct (processRecords st rs1) as [e|st1]; simpl; [done|eauto].
Qed.

Lemma Inv_processRecords st rs st' :
  Inv st → processRecords st rs = inr st' → Inv st'.
Proof.
  revert st. induction rs as [|r rs IH]; intros st Hinv.
  - by intros [= <-].
  - intros (st1 & H1 & H2)%processRecords_cons_inv.
    eapply IH; [|done]. by eapply Inv_processRecord.
Qed.

Lemma extends_processRecords st rs st' :
  processRecords st rs = inr st' → extends st st'.
Proof.
  revert st. induction rs as [|r rs IH]; intros st.
  - intros [= <-]. apply extends_refl.
  - intros (st1 & H1 & H2)%processRecords_cons_inv.
    eapply extends_trans; [by eapply extends_processRecord|by apply IH].
Qed.

(** The read loop is [processRecords] on the decoded records, followed by
    the reader's failure if there is one. *)
Lemma ingest_decode_all reader st stream :
  snd (ingest reader st stream) =
  let! st' := processRecords st (fst (decode_all reader stream)) in
  match snd (decode_all reader stream) with
  | Some reason => throw (ReaderFailed reason)
  | None => ok st'
  end.
Proof.
  revert reader st. induction stream as [|chunk rest IH]; intros reader st; simpl; [done|].
  destruct (feed reader chunk) as [records next].
  destruct next as [reason|reader']; simpl.
  - destruct (processRecords st records) as [e|st1]; done.
  - destruct (decode_all reader' rest) as [more failure] eqn:Hdec. simpl.
    rewrite processRecords_app.
    destruct (processRecords st records) as [e|st1]; simpl; [done|].
    rewrite IH, Hdec. done.
Qed.

Lemma ingest_ok reader st stream unread st' :
  ingest reader st stream = (unread, inr st') →
  unread = [] ∧ processRecords st (fst (decode_all reader stream)) = inr st'
  ∧ snd (decode_all reader stream) = None.
Proof.
  intros Hing. split.
  - revert reader st Hing. induction stream as [|chunk rest IH]; intros reader st; simpl.
    + by intros [= <- _].
    + destruct (feed reader chunk) as [records [reason|reader']];
        destruct (processRecords st records) as [e|st1]; try done. apply IH.
  - pose proof (ingest_decode_all reader st stream) as Hsnd.
    rewrite Hing in Hsnd. simpl in Hsnd.
    destruct (processRecords st _) as [e|st1]; simpl in Hsnd; [done|].
    destruct (snd (decode_all reader stream)); [done|]. by injection Hsnd as <-.
Qed.
End Runs.

(** ** [initialize] as a whole *)

Section Initialize.
Context `{Collaborators}.

Lemma initialize_ok this this' init :
  initialize this = (this', inr init) →
  ∃ st, processRecords initial_state (records_of this) = inr st
        ∧ Inv st
        ∧ init = finish st
        ∧ this' = {| options_size := options_size this; options_stream := [];
                     msgEventsByChannel := Some (messagesByChannel st);
                     priv_start := Some (init_start init);
                     priv_end := Some (init_end init) |}.
Proof.
  unfold initialize, records_of. case_decide; [done|].
  destruct loadDecompressHandlers as [reason|h]; [done|].
  destruct (ingest (newReader h) initial_state (options_stream this))
    as [unread [e|st]] eqn:Hing; [done|].
  intros [= <- <-]. apply ingest_ok in Hing as (-> & Hrun & _).
  exists st. split_and!; try done.
  eapply Inv_processRecords; [apply Inv_initial|done].
Qed.

Lemma processRecords_fails this e :
  processRecords initial_state (records_of this) = inl e → fails this.
Proof.
  unfold fails, initialize, records_of.
  case_decide; [by exists SizeLimitExceeded|].
  destruct loadDecompressHandlers as [reason|h];
    [by exists (DecompressHandlersFailed reason)|].
  intros Hrun.
  pose proof (ingest_decode_all (newReader h) initial_state (options_stream this)) as Hsnd.
  rewrite Hrun in Hsnd. simpl in Hsnd.
  destruct (ingest _ _ _) as [unread [e'|st]]; simpl in *; [by exists e'|done].
Qed.

(** The error of a run that passes the size guard and finds its
    decompression handlers is the first error of [processRecords]. *)
Lemma processRecords_error this e handlers :
  options_size this ≤ SIZE_LIMIT →
  loadDecompressHandlers = inr handlers →
  processRecords initial_state (records_of this) = inl e →
  snd (initialize this) = inl e.
Proof.
  unfold initialize, records_of. intros Hsize Hload. case_decide; [lia|].
  destruct loadDecompressHandlers as [reason|h]; [done|].
  intros Hrun.
  pose proof (ingest_decode_all (newReader h) initial_state (options_stream this)) as Hsnd.
  rewrite Hrun in Hsnd. simpl in Hsnd.
  destruct (ingest _ _ _) as [unread [e'|st]]; simpl in *; by simplify_eq.
Qed.
End Initialize.

(** ** The size guard *)

Section SizeGuard.
Context `{Collaborators}.

Lemma processRecord_structural st record e :
  processRecord st record = inl e → structural e.
Proof.
  destruct record as [p l|name md|s|c|m|ty]; simpl; try done.
  - destruct (schemasById st !! schema_id s); [case_decide|]; try done.
    by intros [= <-].
  - destruct (JsMap.get (channelInfoById st) (channel_id c)).
    { case_decide; [done|]. by intros [= <-]. }
    case_decide; [done|]. case_decide; [by intros [= <-]|].
    by destruct (parseChannel _ _).
  - destruct (JsMap.get (channelInfoById st) (message_channelId m));
      [destruct (JsMap.get (messagesByChannel st) (message_channelId m))|];
      [done|..]; (case_decide; [done|by intros [= <-]]).
Qed.

Lemma processRecords_structural st records e :
  processRecords st records = inl e → structural e.
Proof.
  revert st. induction records as [|r rs IH]; intros st; simpl; [done|].
  destruct (processRecord st r) as [e'|st1] eqn:Hr; simpl.
  - intros [= <-]. by eapply processRecord_structural.
  - apply IH.
Qed.

Lemma ingest_not_size_limit reader st stream :
  snd (ingest reader st stream) ≠ inl SizeLimitExceeded.
Proof.
  rewrite ingest_decode_all.
  destruct (processRecords st _) as [e|st1] eqn:Hrun; simpl.
  - intros [= ->]. by apply processRecords_structural in Hrun.
  - by destruct (snd _).
Qed.

(** C6: a source whose declared size exceeds 1 GiB makes [initialize]
    throw the error whose text names the 1GB limit, with the stream left
    unread (the source, its stream included, is unchanged); a declared
    size of at most 1 GiB never produces that error. *)
Theorem C6_size_guard (this : Source) :
  (options_size this > 1024 * 1024 * 1024 →
     initialize this = (this, inl SizeLimitExceeded)
     ∧ options_stream (fst (initialize this)) = options_stream this
     ∧ error_message SizeLimitExceeded =
         "Unable to open unindexed MCAP file; unindexed files are limited to 1GB")
  ∧ (options_size this ≤ 1024 * 1024 * 1024 →
     snd (initialize this) ≠ inl SizeLimitExceeded).
Proof.
  split.
  - intros Hsize. unfold initialize. rewrite decide_True by exact Hsize. done.
  - intros Hsize. unfold initialize. rewrite decide_False by (unfold SIZE_LIMIT; lia).
    destruct loadDecompressHandlers as [reason|h]; [done|].
    pose proof (ingest_not_size_limit (newReader h) initial_state (options_stream this)) as Hing.
    destruct (ingest _ _ _) as [unread [e|st]]; simpl in *; [|done].
    intros [= ->]. done.
Qed.
End SizeGuard.

Lemma C6_size_guard_witness :
  let H := Demo.collaborators Demo.table_a in
  let big := new_source (1024 * 1024 * 1024 + 1) Demo.bytes_a in
  let small := new_source (1024 * 1024 * 1024) Demo.bytes_a in
  (initialize big = (big, inl SizeLimitExceeded)
   ∧ options_stream (fst (initialize big)) = options_stream big
   ∧ error_message SizeLimitExceeded =
       "Unable to open unindexed MCAP file; unindexed files are limited to 1GB")
  ∧ snd (initialize small) ≠ inl SizeLimitExceeded.
Proof.
  intros H big small. split.
  - apply (proj1 (C6_size_guard big)). reflexivity.
  - apply (proj2 (C6_size_guard small)). simpl. lia.
Defined.

(** ** Messages without a channel, and errored channels *)

Section Errored.
Context `{Collaborators}.

Lemma processRecords_skip st record rest :
  processRecord st record = inr st →
  processRecords st (record :: rest) = processRecords st rest.
Proof. intros Hskip. simpl. by rewrite Hskip. Qed.

(** C5: a Message record whose channel id has no channel info or no bucket
    is dropped without any change of state when the id is in the errored
    set, and the rest of the stream is processed as if the record were not
    there; otherwise [processRecord] throws "message for channel ... with no
    prior channel info", and that is the error of [initialize]. *)
Theorem C5_message_without_channel (st : State) (m : Message) :
  JsMap.get (channelInfoById st) (message_channelId m) = None
    ∨ JsMap.get (messagesByChannel st) (message_channelId m) = None →
  (message_channelId m ∈ channelIdsWithErrors st →
     processRecord st (RMessage m) = inr st
     ∧ ∀ rest, processRecords st (RMessage m :: rest) = processRecords st rest)
  ∧ (message_channelId m ∉ channelIdsWithErrors st →
     processRecord st (RMessage m) = inl (NoPriorChannelInfo (message_channelId m))
     ∧ error_message (NoPriorChannelInfo (message_channelId m)) =
         "message for channel " +:+ pretty (message_channelId m)
           +:+ " with no prior channel info"
     ∧ ∀ this handlers pre post,
         options_size this ≤ SIZE_LIMIT →
         loadDecompressHandlers = inr handlers →
         records_of this = pre ++ RMessage m :: post →
         processRecords initial_state pre = inr st →
         snd (initialize this) = inl (NoPriorChannelInfo (message_channelId m))).
Proof.
  intros Hmissing.
  assert (Hstep : processRecord st (RMessage m) =
                  if decide (message_channelId m ∈ channelIdsWithErrors st)
                  then inr st else inl (NoPriorChannelInfo (message_channelId m))).
  { simpl. destruct Hmissing as [-> | Hevs]; [done|].
    rewrite Hevs. by destruct (JsMap.get (channelInfoById st) _). }
  split; intros Herr.
  - rewrite decide_True in Hstep by done. split; [done|].
    intros rest. by apply processRecords_skip.
  - rewrite decide_False in Hstep by done. split_and!; [done..|].
    intros this handlers pre post Hsize Hload Hrecords Hpre.
    eapply processRecords_error; [done..|].
    rewrite Hrecords, processRecords_app, Hpre.
    cbn [bind processRecords]. by rewrite Hstep.
Qed.

Lemma differing_channel_registered st record id :
  processRecord st record = inl (DifferingChannelInfos id) →
  is_Some (JsMap.get (channelInfoById st) id).
Proof.
  destruct record as [p l|name md|s|c|m|ty]; simpl; try done.
  - destruct (schemasById st !! schema_id s); [case_decide|]; done.
  - destruct (JsMap.get (channelInfoById st) (channel_id c)) eqn:Hget.
    { case_decide; [done|]. intros [= <-]. by rewrite Hget. }
    case_decide; [done|]. case_decide; [done|].
    by destruct (parseChannel _ _).
  - destruct (JsMap.get (channelInfoById st) (message_channelId m));
      [destruct (JsMap.get (messagesByChannel st) (message_channelId m))|];
      [done|..]; by case_decide.
Qed.

Lemma errored_channel_skipped st c :
  Inv st → channel_id c ∈ channelIdsWithErrors st →
  processRecord st (RChannel c) = inr st.
Proof.
  intros Hinv Herr. simpl.
  rewrite (inv_disjoint _ Hinv _ Herr). by rewrite decide_True.
Qed.

Lemma errored_never_differing st id later :
  Inv st → id ∈ channelIdsWithErrors st →
  processRecords st later ≠ inl (DifferingChannelInfos id).
Proof.
  revert st. induction later as [|r rs IH]; intros st Hinv Herr; simpl; [done|].
  destruct (processRecord st r) as [e|st1] eqn:Hr; simpl.
  - intros [= ->]. apply differing_channel_registered in Hr as [info Hinfo].
    by rewrite (inv_disjoint _ Hinv _ Herr) in Hinfo.
  - apply IH; [by eapply Inv_processRecord|].
    by apply (ext_errored _ _ (extends_processRecord _ _ _ Hr)).
Qed.

(** C10: once a channel id is in the errored set, a Channel record with
    that id leaves the state as it is, whatever its content; no later record
    makes [processRecord] throw "differing channel infos" for that id; and
    in every later state the id is still errored and has neither channel
    info nor bucket. *)
Theorem C10_errored_channel_stays_errored
    (records : list TypedMcapRecord) (st : State) (id : Z) :
  processRecords initial_state records = inr st →
  id ∈ channelIdsWithErrors st →
  (∀ c, channel_id c = id → processRecord st (RChannel c) = inr st)
  ∧ (∀ later, processRecords st later ≠ inl (DifferingChannelInfos id))
  ∧ (∀ later st', processRecords st later = inr st' →
       id ∈ channelIdsWithErrors st'
       ∧ JsMap.get (channelInfoById st') id = None
       ∧ JsMap.get (messagesByChannel st') id = None).
Proof.
  intros Hrun Herr.
  assert (Hinv : Inv st) by (eapply Inv_processRecords; [apply Inv_initial|done]).
  split_and!.
  - intros c <-. by apply errored_channel_skipped.
  - intros later. by apply errored_never_differing.
  - intros later st' Hlater.
    assert (Hinv' : Inv st') by (by eapply Inv_processRecords).
    assert (Herr' : id ∈ channelIdsWithErrors st')
      by (by apply (ext_errored _ _ (extends_processRecords _ _ _ Hlater))).
    split_and!; [done|by apply (inv_disjoint _ Hinv')|].
    apply Inv_get_messages; [done|]. by apply (inv_disjoint _ Hinv').
Qed.
End Errored.

Lemma C5_message_without_channel_witness :
  let H := Demo.collaborators Demo.table_errored in
  let errored := state_after [RChannel (Demo.channel 1 0 "/x" "bad");
                              RChannel (Demo.channel 1 0 "/x" "bad")] in
  records_of (new_source 3 Demo.bytes_errored) = Demo.table_errored
  ∧ processRecord errored (RMessage (Demo.msg 1 4)) = inr errored.
Proof.
  intros H errored. split; [reflexivity|].
  apply (C5_message_without_channel errored (Demo.msg 1 4)).
  - left. reflexivity.
  - vm_compute. reflexivity.
Defined.

Lemma C10_errored_channel_stays_errored_witness :
  let H := Demo.collaborators Demo.table_errored in
  let st := state_after [RChannel (Demo.channel 1 0 "/x" "bad")] in
  processRecord st (RChannel (Demo.channel 1 0 "/x" "bad")) = inr st.
Proof.
  intros H st.
  apply (C10_errored_channel_stays_errored [RChannel (Demo.channel 1 0 "/x" "bad")] st 1).
  - reflexivity.
  - vm_compute. reflexivity.
  - reflexivity.
Defined.

(** ** Queries on an initialized source *)

Section Queries.
Context `{Collaborators}.

Lemma Forall_values_set {K V} `{EqDecision K} (P : V → Prop) (m : JsMap.t K V) k v :
  Forall P (JsMap.values m) → P v → Forall P (JsMap.values (JsMap.set m k v)).
Proof.
  intros Hm Hv. induction m as [|[k' v'] m IH]; simpl.
  - by constructor.
  - apply Forall_cons in Hm as [Hv' Hm]. case_decide; simpl.
    + by constructor.
    + constructor; [done|by apply IH].
Qed.

Lemma backfill_step_qualifies args acc msgEvent :
  Forall (qualifies args) (JsMap.values acc) →
  Forall (qualifies args) (JsMap.values (backfill_step args acc msgEvent)).
Proof.
  intros Hacc. unfold backfill_step.
  destruct (bool_decide_reflect (compare (receiveTime msgEvent) (backfill_time args) ≤ 0));
    destruct (bool_decide_reflect (topic msgEvent ∈ backfill_topics args)); simpl; try done.
  by apply Forall_values_set.
Qed.

Lemma backfill_bucket_qualifies args msgEvents acc :
  Forall (qualifies args) (JsMap.values acc) →
  Forall (qualifies args) (JsMap.values (fold_left (backfill_step args) msgEvents acc)).
Proof.
  revert acc. induction msgEvents as [|e es IH]; intros acc Hacc; simpl; [done|].
  by apply IH, backfill_step_qualifies.
Qed.

Lemma backfill_scan_qualifies args (byChannel : JsMap.t Z (list MessageEvent)) acc :
  Forall (qualifies args) (JsMap.values acc) →
  Forall (qualifies args)
    (JsMap.values
       (fold_left (λ acc '(_, msgEvents), fold_left (backfill_step args) msgEvents acc)
          (JsMap.entries byChannel) acc)).
Proof.
  revert acc. induction byChannel as [|[id es] m IH]; intros acc Hacc; simpl; [done|].
  by apply IH, backfill_bucket_qualifies.
Qed.

Lemma initialized_store this0 this init :
  initialize this0 = (this, inr init) →
  ∃ byChannel start end_,
    msgEventsByChannel this = Some byChannel
    ∧ priv_start this = Some start ∧ priv_end this = Some end_.
Proof.
  intros (st & _ & _ & _ & ->)%initialize_ok. simpl.
  do 3 eexists. split_and!; reflexivity.
Qed.

(** C7: on an initialized source [getBackfillMessages] returns a list,
    leaves the source as it is, and every returned event was received at or
    before the query time (and is on a requested topic). *)
Theorem C7_backfill_not_after_query_time
    (this0 this : Source) (init : Initialization) (args : GetBackfillMessagesArgs) :
  initialize this0 = (this, inr init) →
  ∃ msgEvents,
    getBackfillMessages args this = (this, inr msgEvents)
    ∧ ∀ msgEvent, msgEvent ∈ msgEvents →
        ¬ compare (receiveTime msgEvent) (backfill_time args) > 0
        ∧ topic msgEvent ∈ backfill_topics args.
Proof.
  intros (byChannel & start & end_ & Hstore & _)%initialized_store.
  unfold getBackfillMessages. rewrite Hstore. eexists. split; [done|].
  intros e He.
  pose proof (backfill_scan_qualifies args byChannel JsMap.empty
                (Forall_nil_2 _)) as Hall.
  rewrite Forall_forall in Hall. destruct (Hall e He) as [Htime Htopic].
  split; [lia|done].
Qed.

(** C8: on an initialized source a call of [messageIterator] yields a
    sequence and leaves the source as it found it, so that a second call
    with the same arguments yields the same sequence. *)
Theorem C8_messageIterator_idempotent
    (this0 this : Source) (init : Initialization) (args : MessageIteratorArgs) :
  initialize this0 = (this, inr init) →
  ∃ first,
    messageIterator args this = (this, inr first)
    ∧ ∀ this1 result1 this2 result2,
        messageIterator args this = (this1, result1) →
        messageIterator args this1 = (this2, result2) →
        result1 = inr first ∧ result2 = inr first.
Proof.
  intros (byChannel & start & end_ & Hstore & Hstart & Hend)%initialized_store.
  assert (Hcall : ∃ first, messageIterator args this = (this, inr first)).
  { unfold messageIterator. rewrite Hstore, Hstart, Hend.
    destruct (iter_start args), (iter_end args); simpl; case_decide; by eexists. }
  destruct Hcall as [first Hcall]. exists first. split; [done|].
  intros this1 result1 this2 result2 H1 H2.
  rewrite Hcall in H1. injection H1 as <- <-.
  rewrite Hcall in H2. by injection H2 as <- <-.
Qed.
End Queries.

Lemma C7_backfill_not_after_query_time_witness :
  let H := Demo.collaborators Demo.table_a in
  let this := fst (initialize (new_source 5 Demo.bytes_a)) in
  let args := mkBackfillArgs {[ "/a" ]} (mkTime 0 2) in
  ∃ msgEvents,
    getBackfillMessages args this = (this, inr msgEvents)
    ∧ ∀ msgEvent, msgEvent ∈ msgEvents →
        ¬ compare (receiveTime msgEvent) (backfill_time args) > 0
        ∧ topic msgEvent ∈ backfill_topics args.
Proof.
  intros H this args.
  eapply (C7_backfill_not_after_query_time (new_source 5 Demo.bytes_a) this).
  reflexivity.
Defined.

Lemma C8_messageIterator_idempotent_witness :
  let H := Demo.collaborators Demo.table_a in
  let this := fst (initialize (new_source 5 Demo.bytes_a)) in
  let args := mkIterArgs {[ "/a" ]} None (Some (mkTime 0 4)) in
  ∃ first,
    messageIterator args this = (this, inr first)
    ∧ ∀ this1 result1 this2 result2,
        messageIterator args this = (this1, result1) →
        messageIterator args this1 = (this2, result2) →
        result1 = inr first ∧ result2 = inr first.
Proof.
  intros H this args.
  eapply (C8_messageIterator_idempotent (new_source 5 Demo.bytes_a) this).
  reflexivity.
Defined.

(** ** What the iterator yields *)

Section Iterator.
Context `{Collaborators}.

Lemma ingested_in_cons st record records :
  ingested_in st (record :: records) = ingested_in st [record] ++ ingested_in st records.
Proof. unfold ingested_in. simpl. by rewrite app_nil_r. Qed.

Lemma stored_step st0 record st1 st :
  Inv st0 → processRecord st0 record = inr st1 → extends st1 st → Inv st →
  stored (messagesByChannel st1) ≡ₚ stored (messagesByChannel st0) ++ ingested_in st [record].
Proof.
  intros Hinv0 Hstep Hext Hinv.
  destruct record as [p l|name md|s|c|m|ty]; simpl in *.
  - injection Hstep as <-. simpl. by rewrite app_nil_r.
  - injection Hstep as <-. simpl. by rewrite app_nil_r.
  - rewrite app_nil_r.
    destruct (schemasById st0 !! schema_id s); [case_decide; [|done]|];
      by injection Hstep as <-.
  - rewrite app_nil_r.
    destruct (JsMap.get (channelInfoById st0) (channel_id c)) eqn:Hget.
    { case_decide; [|done]. by injection Hstep as <-. }
    case_decide; [by injection Hstep as <-|]. case_decide; [done|].
    destruct (parseChannel _ _); injection Hstep as <-; simpl; [done|].
    rewrite stored_set_fresh; [done|]. by apply Inv_get_messages.
  - destruct (JsMap.get (channelInfoById st0) (message_channelId m)) as [info|] eqn:Hinfo;
      [destruct (JsMap.get (messagesByChannel st0) (message_channelId m)) as [evs|] eqn:Hevs|].
    + injection Hstep as <-. simpl in *.
      rewrite (ext_info _ _ Hext _ _ Hinfo). simpl.
      by apply stored_push.
    + apply (Inv_get_messages _ _ Hinv0) in Hevs. congruence.
    + case_decide as Herr; [|done]. injection Hstep as <-.
      rewrite (inv_disjoint _ Hinv); [by rewrite !app_nil_r|].
      by apply (ext_errored _ _ Hext).
  - injection Hstep as <-. by rewrite app_nil_r.
Qed.

Lemma stored_run st0 records st :
  Inv st0 → processRecords st0 records = inr st →
  stored (messagesByChannel st) ≡ₚ stored (messagesByChannel st0) ++ ingested_in st records.
Proof.
  revert st0. induction records as [|r rs IH]; intros st0 Hinv0.
  - intros [= <-]. simpl. by rewrite app_nil_r.
  - intros (st1 & H1 & H2)%processRecords_cons_inv.
    assert (Hinv1 : Inv st1) by (by eapply Inv_processRecord).
    assert (Hinv : Inv st) by (by eapply Inv_processRecords).
    rewrite (IH st1 Hinv1 H2).
    rewrite (stored_step st0 r st1 st Hinv0 H1 (extends_processRecords _ _ _ H2) Hinv).
    by rewrite (ingested_in_cons st r rs), app_assoc.
Qed.

(** After a run from the initial state the buckets hold the ingested
    events, each once. *)
Lemma stored_ingested records st :
  processRecords initial_state records = inr st →
  stored (messagesByChannel st) ≡ₚ ingested records.
Proof.
  intros Hrun. unfold ingested, state_after. rewrite Hrun.
  by rewrite (stored_run _ _ _ Inv_initial Hrun).
Qed.

Lemma sum_topics_fold st infos acc :
  topic_name <$> sum_topics (fold_left (summarize_channel st) infos acc) =
  (topic_name <$> sum_topics acc) ++ ((channel_topic ∘ info_channel) <$> infos).
Proof.
  revert acc. induction infos as [|info infos IH]; intros acc; simpl.
  - by rewrite app_nil_r.
  - rewrite IH. simpl. rewrite fmap_app. simpl. by rewrite <- app_assoc.
Qed.

Lemma registered_in_full_topics st id info :
  JsMap.get (channelInfoById st) id = Some info →
  channel_topic (info_channel info) ∈ full_topics (finish st).
Proof.
  intros Hget. unfold full_topics, finish, summarize. simpl.
  rewrite sum_topics_fold. simpl. apply elem_of_list_to_set.
  apply list_elem_of_fmap. exists info. split; [done|].
  apply list_elem_of_fmap. exists (id, info). split; [done|].
  by apply get_Some_elem_of.
Qed.

Lemma scan_bucket id (msgEvents : list MessageEvent) topics start end_ :
  map (λ msgEvent, {| connectionId := id; msgEvent := structuredClone msgEvent |})
      (filter (λ msgEvent, selected topics start end_ msgEvent = true) msgEvents) =
  filter (λ r, selected topics start end_ (msgEvent r) = true)
         (mkIteratorResult id <$> msgEvents).
Proof.
  induction msgEvents as [|e es IH]; [done|].
  rewrite fmap_cons, !filter_cons. cbn [msgEvent].
  case_decide; [|done]. cbn [map]. by rewrite IH.
Qed.

Lemma scan_filter (byChannel : JsMap.t Z (list MessageEvent)) topics start end_ :
  scan byChannel topics start end_ =
  filter (λ r, selected topics start end_ (msgEvent r) = true) (stored byChannel).
Proof.
  unfold scan, stored, JsMap.entries.
  induction byChannel as [|[id evs] m IH]; [done|].
  cbn [flat_map]. by rewrite filter_app, IH, scan_bucket.
Qed.

Lemma scan_all (byChannel : JsMap.t Z (list MessageEvent)) topics start end_ :
  (∀ r, r ∈ stored byChannel → selected topics start end_ (msgEvent r) = true) →
  scan byChannel topics start end_ = stored byChannel.
Proof.
  intros Hall. rewrite scan_filter.
  induction (stored byChannel) as [|r rs IH]; [done|].
  rewrite filter_cons, decide_True by (apply Hall; left).
  f_equal. apply IH. intros r' Hr'. apply Hall. by right.
Qed.

Lemma selected_spec topics start end_ msgEvent :
  selected topics start end_ msgEvent = true ↔
  time_le start (receiveTime msgEvent) ∧ time_le (receiveTime msgEvent) end_
  ∧ topic msgEvent ∈ topics.
Proof.
  unfold selected. rewrite andb_true_iff, isTimeInRangeInclusive_spec, bool_decide_eq_true.
  tauto.
Qed.

Lemma sorted_by_receiveTime (results : list IteratorResult) :
  StronglySorted receive_order (Array_sort by_receiveTime results).
Proof.
  apply (Array_sort_sorted by_receiveTime).
  - intros x y. apply time_le_total.
  - intros x y z. apply time_le_trans.
Qed.

(** C1: on an initialized source, the iterator asked for all the topics of
    the initialization result and no time bounds yields a permutation of
    the stored events, which are the ingested message events of the stream,
    sorted by receive time; and asked for any topic set and any range
    [start, end] it yields only stored events received within the range,
    bounds included, on a requested topic, so that no stored event outside
    the range is among them. *)
Theorem C1_messageIterator_complete_sorted_in_range
    (this0 this : Source) (init : Initialization) :
  initialize this0 = (this, inr init) →
  (∃ yielded byChannel,
     messageIterator
       {| iter_topics := full_topics init; iter_start := None; iter_end := None |}
       this = (this, inr yielded)
     ∧ msgEventsByChannel this = Some byChannel
     ∧ yielded ≡ₚ stored byChannel
     ∧ yielded ≡ₚ ingested (records_of this0)
     ∧ StronglySorted receive_order yielded)
  ∧ (∀ topics start end_, ∃ yielded byChannel,
       messageIterator
         {| iter_topics := topics; iter_start := Some start; iter_end := Some end_ |}
         this = (this, inr yielded)
       ∧ msgEventsByChannel this = Some byChannel
       ∧ StronglySorted receive_order yielded
       ∧ (∀ r, r ∈ yielded →
            r ∈ stored byChannel
            ∧ time_le start (receiveTime (msgEvent r))
            ∧ time_le (receiveTime (msgEvent r)) end_
            ∧ topic (msgEvent r) ∈ topics)
       ∧ (∀ r, r ∈ stored byChannel →
            ¬ (time_le start (receiveTime (msgEvent r))
               ∧ time_le (receiveTime (msgEvent r)) end_) →
            r ∉ yielded)).
Proof.
  intros (st & Hrun & Hinv & -> & ->)%initialize_ok. split.
  - exists (Array_sort by_receiveTime (stored (messagesByChannel st))),
      (messagesByChannel st).
    assert (Hsel : ∀ r, r ∈ stored (messagesByChannel st) →
              selected (full_topics (finish st)) (init_start (finish st))
                (init_end (finish st)) (msgEvent r) = true).
    { intros r Hr. apply selected_spec.
      destruct (inv_start _ Hinv r Hr) as (t1 & Ht1 & Hle1).
      destruct (inv_end _ Hinv r Hr) as (t2 & Ht2 & Hle2).
      destruct (inv_topic _ Hinv r Hr) as (info & Hinfo & Htopic).
      simpl. rewrite Ht1, Ht2. simpl. split_and!; [done..|].
      rewrite Htopic. by eapply registered_in_full_topics. }
    split_and!; [|done|apply Array_sort_perm| |apply sorted_by_receiveTime].
    + unfold messageIterator. simpl. case_decide as Hsize.
      * apply size_empty_inv in Hsize.
        destruct (stored (messagesByChannel st)) as [|r rs] eqn:Hstored; [done|].
        exfalso. specialize (Hsel r ltac:(left)).
        apply selected_spec in Hsel as (_ & _ & Hin). by apply Hsize in Hin.
      * by rewrite scan_all.
    + rewrite Array_sort_perm. by apply stored_ingested.
  - intros topics start end_.
    exists (if decide (size topics = 0%nat) then []
            else Array_sort by_receiveTime
                   (scan (messagesByChannel st) topics start end_)),
      (messagesByChannel st).
    assert (Hin : ∀ r,
              r ∈ (if decide (size topics = 0%nat) then []
                   else Array_sort by_receiveTime
                          (scan (messagesByChannel st) topics start end_)) →
              r ∈ stored (messagesByChannel st)
              ∧ selected topics start end_ (msgEvent r) = true).
    { intros r. case_decide; [by intros ?%elem_of_nil|].
      rewrite Array_sort_perm, scan_filter, list_elem_of_filter. tauto. }
    split_and!; [|done| | |].
    + unfold messageIterator. simpl. by case_decide.
    + case_decide; [constructor|apply sorted_by_receiveTime].
    + intros r [Hr Hsel%selected_spec]%Hin. tauto.
    + intros r _ Hout [_ Hsel%selected_spec]%Hin. tauto.
Qed.
End Iterator.

Lemma C1_messageIterator_complete_sorted_in_range_witness :
  let H := Demo.collaborators Demo.table_a in
  let this0 := new_source 5 Demo.bytes_a in
  let this := fst (initialize this0) in
  let init := finish (state_after Demo.table_a) in
  (∃ yielded byChannel,
     messageIterator
       {| iter_topics := full_topics init; iter_start := None; iter_end := None |}
       this = (this, inr yielded)
     ∧ msgEventsByChannel this = Some byChannel
     ∧ yielded ≡ₚ stored byChannel
     ∧ yielded ≡ₚ ingested (records_of this0)
     ∧ StronglySorted receive_order yielded)
  ∧ (∀ topics start end_, ∃ yielded byChannel,
       messageIterator
         {| iter_topics := topics; iter_start := Some start; iter_end := Some end_ |}
         this = (this, inr yielded)
       ∧ msgEventsByChannel this = Some byChannel
       ∧ StronglySorted receive_order yielded
       ∧ (∀ r, r ∈ yielded →
            r ∈ stored byChannel
            ∧ time_le start (receiveTime (msgEvent r))
            ∧ time_le (receiveTime (msgEvent r)) end_
            ∧ topic (msgEvent r) ∈ topics)
       ∧ (∀ r, r ∈ stored byChannel →
            ¬ (time_le start (receiveTime (msgEvent r))
               ∧ time_le (receiveTime (msgEvent r)) end_) →
            r ∉ yielded)).
Proof.
  intros H this0 this init.
  apply (C1_messageIterator_complete_sorted_in_range this0 this init).
  reflexivity.
Defined.

(** The scenario of the specification: messages received at 5ns, 1ns and
    3ns on one channel come out at 1ns, 3ns, 5ns. *)
Example iterator_scenario :
  let H := Demo.collaborators Demo.table_a in
  let this := fst (initialize (new_source 5 Demo.bytes_a)) in
  (λ r, nsec (receiveTime (msgEvent r))) <$>
    match snd (messageIterator (mkIterArgs {[ "/a" ]} None None) this) with
    | inr yielded => yielded
    | inl _ => []
    end = [1; 3; 5].
Proof. vm_compute. reflexivity. Qed.

(** ** Per-topic statistics *)

Section TopicStats.
Context `{Collaborators}.

Lemma topicStats_other st infos acc name :
  Forall (λ info, ¬ on_topic name info) infos →
  JsMap.get (sum_topicStats (fold_left (summarize_channel st) infos acc)) name =
  JsMap.get (sum_topicStats acc) name.
Proof.
  revert acc. induction infos as [|info infos IH]; intros acc Hno; [done|].
  apply Forall_cons in Hno as [Hinfo Hno].
  cbn [fold_left]. rewrite IH by done.
  unfold summarize_channel; simpl.
  destruct (JsMap.get (messagesByChannel st) _); simpl; [|done].
  by apply get_set_ne.
Qed.

Lemma topicStats_last st earlier info later msgEvents :
  Forall (λ other, ¬ on_topic (channel_topic (info_channel info)) other) later →
  JsMap.get (messagesByChannel st) (channel_id (info_channel info)) = Some msgEvents →
  JsMap.get (sum_topicStats
               (fold_left (summarize_channel st) (earlier ++ info :: later) empty_summary))
            (channel_topic (info_channel info)) =
  Some {| numMessages := length msgEvents |}.
Proof.
  intros Hlater Hbucket. rewrite fold_left_app. cbn [fold_left].
  rewrite topicStats_other by done.
  unfold summarize_channel at 1; simpl. rewrite Hbucket. simpl.
  apply get_set_eq.
Qed.

Lemma registered_has_bucket st info :
  Inv st → info ∈ JsMap.values (channelInfoById st) →
  is_Some (JsMap.get (messagesByChannel st) (channel_id (info_channel info))).
Proof.
  intros Hinv Hin. unfold JsMap.values in Hin.
  apply list_elem_of_fmap in Hin as ([id info'] & -> & Hin). simpl.
  apply (elem_of_get _ _ _ (inv_nodup _ Hinv)) in Hin.
  rewrite (inv_id _ Hinv _ _ Hin).
  destruct (JsMap.get (messagesByChannel st) id) eqn:Hget; [done|].
  apply (Inv_get_messages _ _ Hinv) in Hget. congruence.
Qed.

Lemma bucket_sizes_app st infos1 infos2 :
  bucket_sizes st (infos1 ++ infos2) = (bucket_sizes st infos1 + bucket_sizes st infos2)%nat.
Proof. unfold bucket_sizes. by rewrite sum_list_with_app. Qed.

(** C9: the stats entry of a topic holds the number of messages of the last
    registered channel with that topic: the messages of the channels
    registered before it on the same topic are not counted, so the entry
    falls short of the topic's total by exactly their number. *)
Theorem C9_topicStats_last_channel_only
    (this0 this : Source) (init : Initialization) (st : State)
    (earlier later : list ChannelInfo) (info : ChannelInfo) :
  initialize this0 = (this, inr init) →
  processRecords initial_state (records_of this0) = inr st →
  JsMap.values (channelInfoById st) = earlier ++ info :: later →
  (∀ other, other ∈ later →
     channel_topic (info_channel other) ≠ channel_topic (info_channel info)) →
  ∃ msgEvents,
    JsMap.get (messagesByChannel st) (channel_id (info_channel info)) = Some msgEvents
    ∧ JsMap.get (init_topicStats init) (channel_topic (info_channel info)) =
        Some {| numMessages := length msgEvents |}
    ∧ (length msgEvents
         + bucket_sizes st (filter (on_topic (channel_topic (info_channel info))) earlier)
       = bucket_sizes st (filter (on_topic (channel_topic (info_channel info)))
                            (JsMap.values (channelInfoById st))))%nat.
Proof.
  intros (st' & Hrun & Hinv & -> & _)%initialize_ok Hst Hvalues Hlater.
  assert (st' = st) as -> by congruence.
  destruct (registered_has_bucket st info Hinv) as [msgEvents Hbucket].
  { rewrite Hvalues. apply elem_of_app. right. left. }
  assert (Hnone : Forall (λ other, ¬ on_topic (channel_topic (info_channel info)) other) later).
  { apply Forall_forall. intros other Hother. by apply Hlater. }
  exists msgEvents. split_and!; [done| |].
  - unfold finish, summarize. simpl. rewrite Hvalues. by apply topicStats_last.
  - rewrite Hvalues, filter_app, filter_cons, decide_True by done.
    replace (filter (on_topic (channel_topic (info_channel info))) later) with
      (@nil ChannelInfo).
    2:{ symmetry. clear -Hnone. induction Hnone as [|x l Hx Hl IH]; [done|].
        by rewrite filter_cons, decide_False. }
    rewrite bucket_sizes_app. unfold bucket_sizes at 3. simpl. rewrite Hbucket. simpl. lia.
Qed.
End TopicStats.

Lemma C9_topicStats_last_channel_only_witness :
  let H := Demo.collaborators Demo.table_shared in
  let this0 := new_source 5 Demo.bytes_shared in
  let st := state_after Demo.table_shared in
  let init := finish st in
  JsMap.get (init_topicStats init) "/t" = Some {| numMessages := 1 |}
  ∧ bucket_sizes st (filter (on_topic "/t") (JsMap.values (channelInfoById st))) = 3%nat.
Proof.
  intros H this0 st init.
  destruct (C9_topicStats_last_channel_only (H := H) this0 (fst (initialize this0)) init st
              [ Demo.info Demo.table_shared (Demo.channel 1 0 "/t" "json") ]
              []
              (Demo.info Demo.table_shared (Demo.channel 2 0 "/t" "json")))
    as (msgEvents & Hbucket & Hstats & Htotal).
  - reflexivity.
  - reflexivity.
  - reflexivity.
  - intros other Hother. apply elem_of_nil in Hother. destruct Hother.
  - vm_compute in Hbucket. injection Hbucket as <-. split.
    + exact Hstats.
    + reflexivity.
Defined.

(** ** Redefinitions and unresolved schemas *)

Section Registry.
Context `{Collaborators}.

Lemma Resolved_processRecord st record st' :
  Resolved st → processRecord st record = inr st' → Resolved st'.
Proof.
  intros Hres Hstep.
  pose proof (extends_processRecord _ _ _ Hstep) as Hext.
  destruct record as [p l|name md|s|c|m|ty]; simpl in Hstep.
  - by injection Hstep as <-.
  - by injection Hstep as <-.
  - assert (channelInfoById st' = channelInfoById st) as Hsame.
    { destruct (schemasById st !! schema_id s); [case_decide; [|done]|];
        by injection Hstep as <-. }
    intros id info. rewrite Hsame. intros Hinfo.
    destruct (Hres id info Hinfo) as [Hzero|[s' Hs']]; [by left|right].
    exists s'. by apply (ext_schema _ _ Hext).
  - destruct (JsMap.get (channelInfoById st) (channel_id c)) eqn:Hget.
    { case_decide; [|done]. by injection Hstep as <-. }
    case_decide; [by injection Hstep as <-|].
    case_decide as Hschema; [done|].
    destruct (parseChannel _ _); injection Hstep as <-; [done|].
    intros id info. simpl. destruct (decide (channel_id c = id)) as [<-|Hne].
    + rewrite get_set_eq. intros [= <-]. simpl.
      destruct (decide (channel_schemaId c = 0)) as [Hz|Hnz]; [by left|right].
      destruct (schemasById st !! channel_schemaId c); [done|].
      exfalso. by apply Hschema.
    + rewrite get_set_ne by done. apply Hres.
  - destruct (JsMap.get (channelInfoById st) (message_channelId m));
      [destruct (JsMap.get (messagesByChannel st) (message_channelId m))|].
    2,3: case_decide; [by injection Hstep as <-|done].
    by injection Hstep as <-.
  - by injection Hstep as <-.
Qed.

Lemma Resolved_processRecords st records st' :
  Resolved st → processRecords st records = inr st' → Resolved st'.
Proof.
  revert st. induction records as [|r rs IH]; intros st Hres.
  - by intros [= <-].
  - intros (st1 & H1 & H2)%processRecords_cons_inv.
    eapply IH; [|done]. by eapply Resolved_processRecord.
Qed.

Lemma Resolved_initial : Resolved initial_state.
Proof. intros id info Hget. done. Qed.

(** A schema id stays unknown as long as no Schema record carries it. *)
Lemma no_schema_processRecords st records st' id :
  schemasById st !! id = None →
  (∀ s, RSchema s ∈ records → schema_id s ≠ id) →
  processRecords st records = inr st' →
  schemasById st' !! id = None.
Proof.
  revert st. induction records as [|r rs IH]; intros st Hnone Hrecs.
  - by intros [= <-].
  - intros (st1 & H1 & H2)%processRecords_cons_inv.
    eapply IH; [| |done].
    + destruct r as [p l|name md|s|c|m|ty]; simpl in H1.
      * by injection H1 as <-.
      * by injection H1 as <-.
      * assert (schema_id s ≠ id) as Hne by (apply Hrecs; left).
        destruct (schemasById st !! schema_id s); [case_decide; [|done]|];
          injection H1 as <-; simpl; by rewrite lookup_insert_ne.
      * destruct (JsMap.get (channelInfoById st) (channel_id c)).
        { case_decide; [|done]. by injection H1 as <-. }
        case_decide; [by injection H1 as <-|]. case_decide; [done|].
        by destruct (parseChannel _ _); injection H1 as <-.
      * destruct (JsMap.get (channelInfoById st) (message_channelId m));
          [destruct (JsMap.get (messagesByChannel st) (message_channelId m))|].
        2,3: case_decide; [by injection H1 as <-|done].
        by injection H1 as <-.
      * by injection H1 as <-.
    + intros s Hs. apply Hrecs. by right.
Qed.

Lemma schema_processed st s st' :
  processRecord st (RSchema s) = inr st' → schemasById st' !! schema_id s = Some s.
Proof.
  simpl. destruct (schemasById st !! schema_id s); [case_decide; [|done]|];
    intros [= <-]; simpl; apply lookup_insert_eq.
Qed.

Lemma channel_processed st c st' :
  processRecord st (RChannel c) = inr st' →
  (∃ info, JsMap.get (channelInfoById st') (channel_id c) = Some info
           ∧ info_channel info = c)
  ∨ channel_id c ∈ channelIdsWithErrors st'.
Proof.
  simpl. destruct (JsMap.get (channelInfoById st) (channel_id c)) as [info|] eqn:Hget.
  { case_decide; [|done]. intros [= <-]. left. eauto. }
  case_decide; [intros [= <-]; by right|]. case_decide; [done|].
  destruct (parseChannel _ _); intros [= <-]; simpl.
  - right. set_solver.
  - left. rewrite get_set_eq. eauto.
Qed.

(** A record that went through once goes through again, with no new
    alert. *)
Lemma schema_again st s :
  schemasById st !! schema_id s = Some s →
  ∃ st', processRecord st (RSchema s) = inr st' ∧ alerts st' = alerts st.
Proof. intros Hs. simpl. rewrite Hs, decide_True by done. by eexists. Qed.

Lemma channel_again st c :
  Inv st →
  (∃ info, JsMap.get (channelInfoById st) (channel_id c) = Some info
           ∧ info_channel info = c)
  ∨ channel_id c ∈ channelIdsWithErrors st →
  processRecord st (RChannel c) = inr st.
Proof.
  intros Hinv [(info & Hinfo & Hc)|Herr].
  - simpl. by rewrite Hinfo, decide_True.
  - by apply errored_channel_skipped.
Qed.

Lemma schema_differs st s :
  (∃ s', schemasById st !! schema_id s = Some s' ∧ s' ≠ s) →
  processRecord st (RSchema s) = inl (DifferingSchemas (schema_id s)).
Proof. intros (s' & Hs' & Hne). simpl. by rewrite Hs', decide_False. Qed.

Lemma channel_differs st c :
  (∃ info, JsMap.get (channelInfoById st) (channel_id c) = Some info
           ∧ info_channel info ≠ c) →
  processRecord st (RChannel c) = inl (DifferingChannelInfos (channel_id c)).
Proof. intros (info & Hinfo & Hne). simpl. by rewrite Hinfo, decide_False. Qed.

(** A run over [pre ++ first :: mid ++ second :: post] that goes through
    passes the states after [first] and before [second]. *)
Lemma run_through_two st pre first mid second post st' :
  processRecords st (pre ++ first :: mid ++ second :: post) = inr st' →
  ∃ sta stb stc std,
    processRecords st pre = inr sta
    ∧ processRecord sta first = inr stb
    ∧ processRecords stb mid = inr stc
    ∧ processRecord stc second = inr std.
Proof.
  intros (sta & Ha & Hrest)%processRecords_app_inv.
  apply processRecords_cons_inv in Hrest as (stb & Hb & Hrest).
  apply processRecords_app_inv in Hrest as (stc & Hc & Hrest).
  apply processRecords_cons_inv in Hrest as (std & Hd & _).
  by exists sta, stb, stc, std.
Qed.

Lemma run_fails this :
  (∀ st, processRecords initial_state (records_of this) ≠ inr st) → fails this.
Proof.
  intros Hno. destruct (processRecords initial_state (records_of this)) as [e|st] eqn:Hrun.
  - by eapply processRecords_fails.
  - by destruct (Hno st).
Qed.
End Registry.

Section Redefinition.
Context `{Collaborators}.

(** Whatever the reader hands out: a Schema or Channel record that went
    through once goes through again with no failure and no new alert; a
    second Schema record with the id of an earlier one and other content
    makes [initialize] fail; so does a second Channel record with the id of
    an earlier one and other content, provided the id is not in the errored
    set after the earlier record. *)
Lemma redefinition_among_handed_out (this : Source) :
  (∀ pre record mid st1 st2,
     (∃ s, record = RSchema s) ∨ (∃ c, record = RChannel c) →
     processRecords initial_state (pre ++ [record]) = inr st1 →
     processRecords st1 mid = inr st2 →
     ∃ st3, processRecord st2 record = inr st3 ∧ alerts st3 = alerts st2)
  ∧ (∀ pre s1 mid s2 post,
       records_of this = pre ++ RSchema s1 :: mid ++ RSchema s2 :: post →
       schema_id s1 = schema_id s2 → s1 ≠ s2 →
       fails this)
  ∧ (∀ pre c1 mid c2 post,
       records_of this = pre ++ RChannel c1 :: mid ++ RChannel c2 :: post →
       channel_id c1 = channel_id c2 → c1 ≠ c2 →
       (∀ st1, processRecords initial_state (pre ++ [RChannel c1]) = inr st1 →
               channel_id c1 ∉ channelIdsWithErrors st1) →
       fails this).
Proof.
  split_and!.
  - intros pre record mid st1 st2 Hkind Hfirst Hmid.
    apply processRecords_app_inv in Hfirst as (st0 & Hpre & Hrec).
    apply processRecords_cons_inv in Hrec as (st1' & Hrec & [= ->]).
    pose proof (extends_processRecords _ _ _ Hmid) as Hext.
    destruct Hkind as [[s ->]|[c ->]].
    + apply schema_again. apply (ext_schema _ _ Hext). by eapply schema_processed.
    + exists st2. split; [|done]. apply channel_again.
      * eapply Inv_processRecords; [|exact Hmid].
        eapply Inv_processRecord; [|exact Hrec].
        eapply Inv_processRecords; [apply Inv_initial|exact Hpre].
      * destruct (channel_processed _ _ _ Hrec) as [(info & Hinfo & Hc)|Herr].
        -- left. exists info. split; [|done]. by apply (ext_info _ _ Hext).
        -- right. by apply (ext_errored _ _ Hext).
  - intros pre s1 mid s2 post Hrecords Hid Hne. apply run_fails. intros st.
    rewrite Hrecords. intros (sta & stb & stc & std & Ha & Hb & Hc & Hd)%run_through_two.
    rewrite schema_differs in Hd; [done|].
    exists s1. split; [|done]. rewrite <- Hid.
    apply (ext_schema _ _ (extends_processRecords _ _ _ Hc)). by eapply schema_processed.
  - intros pre c1 mid c2 post Hrecords Hid Hne Hreg. apply run_fails. intros st.
    rewrite Hrecords. intros (sta & stb & stc & std & Ha & Hb & Hc & Hd)%run_through_two.
    rewrite channel_differs in Hd; [done|].
    destruct (channel_processed _ _ _ Hb) as [(info & Hinfo & Hinfo_c)|Herr].
    + exists info. split; [|congruence]. rewrite <- Hid.
      by apply (ext_info _ _ (extends_processRecords _ _ _ Hc)).
    + exfalso. apply (Hreg stb); [|done].
      rewrite processRecords_app, Ha. cbn [bind processRecords]. by rewrite Hb.
Qed.

(** Whatever the reader hands out: a Channel record with a nonzero schema
    id that no earlier Schema record carries makes [initialize] fail,
    whatever comes after it, provided the channel's id is not in the errored
    set when the record arrives. *)
Lemma unresolved_schema_unless_errored
    (this : Source) (pre post : list TypedMcapRecord) (c : Channel) :
  records_of this = pre ++ RChannel c :: post →
  channel_schemaId c ≠ 0 →
  (∀ s, RSchema s ∈ pre → schema_id s ≠ channel_schemaId c) →
  (∀ st, processRecords initial_state pre = inr st →
         channel_id c ∉ channelIdsWithErrors st) →
  fails this.
Proof.
  intros Hrecords Hnonzero Hnoschema Hnoterr. apply run_fails. intros st.
  rewrite Hrecords. intros (sta & Ha & Hrest)%processRecords_app_inv.
  apply processRecords_cons_inv in Hrest as (stb & Hb & _).
  assert (Hnone : schemasById sta !! channel_schemaId c = None).
  { eapply no_schema_processRecords; [|exact Hnoschema|exact Ha]. done. }
  pose proof (Resolved_processRecords _ _ _ Resolved_initial Ha) as Hres.
  simpl in Hb.
  destruct (JsMap.get (channelInfoById sta) (channel_id c)) as [info|] eqn:Hinfo.
  - case_decide as Heq; [|done].
    destruct (Hres _ _ Hinfo) as [Hzero|[s Hs]]; rewrite Heq in *; [done|congruence].
  - rewrite decide_False in Hb by (by apply Hnoterr).
    by rewrite decide_True in Hb.
Qed.
End Redefinition.

(** ** Behind the checks of the reader *)

Lemma check_records_app checks records1 records2 :
  check_records checks (records1 ++ records2) =
  match check_records checks records1 with
  | (passed, inl reason) => (passed, inl reason)
  | (passed, inr checks') =>
      let '(passed2, verdict) := check_records checks' records2 in
      (passed ++ passed2, verdict)
  end.
Proof.
  revert checks. induction records1 as [|r rs IH]; intros checks; simpl.
  - by destruct (check_records checks records2).
  - destruct (check_record checks r) as [reason|checks1]; [done|].
    rewrite IH. destruct (check_records checks1 rs) as [passed [reason|checks2]]; [done|].
    by destruct (check_records checks2 records2).
Qed.

Lemma check_records_passed checks records passed checks' :
  check_records checks records = (passed, inr checks') → passed = records.
Proof.
  revert checks passed. induction records as [|r rs IH]; intros checks passed; simpl.
  - by intros [= <- _].
  - destruct (check_record checks r) as [reason|checks1]; [done|].
    destruct (check_records checks1 rs) as [passed1 verdict] eqn:Hrest.
    intros [= <- ->]. f_equal. by eapply IH.
Qed.

(** A channel the reader has recorded stays as recorded while the checks
    pass. *)
Lemma check_record_keeps checks record checks' id c :
  check_record checks record = inr checks' →
  checks_channelsById checks !! id = Some c →
  checks_channelsById checks' !! id = Some c.
Proof.
  destruct record as [p l|name md|s|c0|m|ty]; simpl.
  - destruct (checks_header checks); [done|]. by intros [= <-].
  - by intros [= <-].
  - by intros [= <-].
  - intros Hstep Hc.
    assert (checks' = {| checks_header := checks_header checks;
                         checks_channelsById :=
                           <[channel_id c0 := c0]> (checks_channelsById checks) |}
            ∧ (channel_id c0 = id → c0 = c)) as [-> Hsame].
    { destruct (checks_channelsById checks !! channel_id c0) as [previous|] eqn:Hprev.
      - case_decide as Heq; [|done]. injection Hstep as <-. split; [done|].
        intros Hid. rewrite Hid in Hprev. congruence.
      - injection Hstep as <-. split; [done|]. intros Hid. rewrite Hid in Hprev.
        congruence. }
    simpl. destruct (decide (channel_id c0 = id)) as [Hid|Hne].
    + rewrite <- Hid, lookup_insert_eq. f_equal. by apply Hsame.
    + by rewrite lookup_insert_ne.
  - destruct (checks_channelsById checks !! message_channelId m); [|done].
    by intros [= <-].
  - by intros [= <-].
Qed.

Lemma check_records_keeps checks records passed checks' id c :
  check_records checks records = (passed, inr checks') →
  checks_channelsById checks !! id = Some c →
  checks_channelsById checks' !! id = Some c.
Proof.
  revert checks passed. induction records as [|r rs IH]; intros checks passed; simpl.
  - by intros [= _ <-].
  - destruct (check_record checks r) as [reason|checks1] eqn:Hr; [done|].
    destruct (check_records checks1 rs) as [passed1 verdict] eqn:Hrest.
    intros [= _ ->] Hc. eapply IH; [done|]. by eapply check_record_keeps.
Qed.

(** When all the records pass, the reader has recorded every Channel
    record among them as it is: two of them with the same id are equal. *)
Lemma check_records_channels checks records passed checks' c :
  check_records checks records = (passed, inr checks') →
  RChannel c ∈ records →
  checks_channelsById checks' !! channel_id c = Some c.
Proof.
  revert checks passed. induction records as [|r rs IH]; intros checks passed; simpl.
  - intros _ Hin. by apply elem_of_nil in Hin.
  - destruct (check_record checks r) as [reason|checks1] eqn:Hr; [done|].
    destruct (check_records checks1 rs) as [passed1 verdict] eqn:Hrest.
    intros [= _ ->] Hin. apply elem_of_cons in Hin as [<-|Hin]; [|by eapply IH].
    eapply check_records_keeps; [done|].
    simpl in Hr. destruct (checks_channelsById checks !! channel_id c);
      [case_decide; [|done]|]; injection Hr as <-; simpl; apply lookup_insert_eq.
Qed.

Lemma reader_failure_fails `{Collaborators} (this : Source) :
  (∀ handlers, loadDecompressHandlers = inr handlers →
     is_Some (snd (decode_all (newReader handlers) (options_stream this)))) →
  fails this.
Proof.
  intros Hfail. unfold fails, initialize.
  case_decide; [by exists SizeLimitExceeded|].
  destruct loadDecompressHandlers as [reason|h] eqn:Hload;
    [by exists (DecompressHandlersFailed reason)|].
  destruct (Hfail h eq_refl) as [reason Hreason].
  pose proof (ingest_decode_all (newReader h) initial_state (options_stream this)) as Hsnd.
  rewrite Hreason in Hsnd.
  destruct (ingest _ _ _) as [unread [e|st]]; simpl in *; [by exists e|].
  by destruct (processRecords initial_state _).
Qed.

(** An errored channel id comes from a Channel record of the run whose
    schema id was zero or known. *)
Lemma errored_origin `{Collaborators} records st id :
  processRecords initial_state records = inr st →
  id ∈ channelIdsWithErrors st →
  ∃ c, RChannel c ∈ records ∧ channel_id c = id
       ∧ (channel_schemaId c = 0 ∨ is_Some (schemasById st !! channel_schemaId c)).
Proof.
  revert st. induction records as [|r rs IH] using rev_ind; intros st.
  - intros [= <-] Hin. by apply not_elem_of_empty in Hin.
  - intros (st1 & Hrs & Hr)%processRecords_app_inv Herr.
    apply processRecords_cons_inv in Hr as (st' & Hr & [= ->]).
    pose proof (extends_processRecord _ _ _ Hr) as Hext.
    assert (Hold : id ∈ channelIdsWithErrors st1 →
              ∃ c, RChannel c ∈ rs ++ [r] ∧ channel_id c = id
                   ∧ (channel_schemaId c = 0
                      ∨ is_Some (schemasById st !! channel_schemaId c))).
    { intros Hid. destruct (IH st1 Hrs Hid) as (c & Hc & Hcid & Hschema).
      exists c. split_and!; [apply elem_of_app; by left|done|].
      destruct Hschema as [?|[s Hs]]; [by left|right].
      exists s. by apply (ext_schema _ _ Hext). }
    destruct r as [p l|name md|s|c|m|ty]; simpl in Hr.
    + injection Hr as <-. by apply Hold.
    + injection Hr as <-. by apply Hold.
    + apply Hold.
      destruct (schemasById st1 !! schema_id s); [case_decide; [|done]|];
        by injection Hr as <-.
    + destruct (JsMap.get (channelInfoById st1) (channel_id c)).
      { case_decide; [|done]. injection Hr as <-. by apply Hold. }
      case_decide; [injection Hr as <-; by apply Hold|].
      case_decide as Hschema; [done|].
      destruct (parseChannel _ _) as [error|parsed]; injection Hr as <-; simpl in *;
        [|by apply Hold].
      apply elem_of_union in Herr as [Herr|Herr%elem_of_singleton]; [by apply Hold|].
      exists c. split_and!; [apply elem_of_app; right; left|done|].
      destruct (decide (channel_schemaId c = 0)) as [?|Hnz]; [by left|right].
      destruct (schemasById st1 !! channel_schemaId c) as [s|] eqn:Hs; [by eexists|].
      exfalso. by apply Hschema.
    + apply Hold.
      destruct (JsMap.get (channelInfoById st1) (message_channelId m));
        [destruct (JsMap.get (messagesByChannel st1) (message_channelId m))|].
      2,3: case_decide; [by injection Hr as <-|done].
      by injection Hr as <-.
    + injection Hr as <-. by apply Hold.
Qed.

Section RealReader.
Variable framing : Collaborators.

(** What the reader hands out over a stream: the framed records that pass
    its checks, and as failure the first check that throws or else the
    failure of the framing. *)
Lemma real_decode_all reader checks stream :
  @decode_all (McapStreamReader framing) (reader, checks) stream =
  let '(framed, failure) := @decode_all framing reader stream in
  match check_records checks framed with
  | (passed, inl reason) => (passed, Some reason)
  | (passed, inr _) => (passed, failure)
  end.
Proof.
  revert reader checks. induction stream as [|chunk rest IH]; intros reader checks; [done|].
  cbn [decode_all]. cbn [feed McapStreamReader].
  destruct (@feed framing reader chunk) as [framed [reason|reader']].
  - by destruct (check_records checks framed) as [passed [reason'|checks']].
  - destruct (@decode_all framing reader' rest) as [more failure] eqn:Hrest.
    rewrite check_records_app.
    destruct (check_records checks framed) as [passed [reason'|checks']]; [done|].
    rewrite IH, Hrest.
    by destruct (check_records checks' more) as [passed' [reason'|checks'']].
Qed.

(** When a check throws on the framed records of a source, [initialize]
    fails. *)
Lemma check_failure_fails (this : Source) passed reason :
  check_records no_checks (@records_of framing this) = (passed, inl reason) →
  @fails (McapStreamReader framing) this.
Proof.
  intros Hcheck. apply reader_failure_fails. intros handlers Hload.
  unfold records_of in Hcheck. cbn [loadDecompressHandlers McapStreamReader] in Hload.
  rewrite Hload in Hcheck. cbn [newReader McapStreamReader].
  rewrite real_decode_all.
  destruct (@decode_all framing _ _) as [framed failure]. simpl in Hcheck.
  by rewrite Hcheck.
Qed.

(** When all the checks pass, the engine is handed the framed records. *)
Lemma check_pass_records (this : Source) passed checks :
  check_records no_checks (@records_of framing this) = (passed, inr checks) →
  @records_of (McapStreamReader framing) this = @records_of framing this.
Proof.
  intros Hcheck. unfold records_of in *. cbn [loadDecompressHandlers McapStreamReader].
  destruct (@loadDecompressHandlers framing) as [reason|handlers]; [done|].
  cbn [newReader McapStreamReader]. rewrite real_decode_all.
  destruct (@decode_all framing _ _) as [framed failure]. simpl in *.
  rewrite Hcheck. simpl. by eapply check_records_passed.
Qed.

(** C3: on the records that [McapStreamReader] frames from the stream, a
    Schema or Channel record that comes again as it is, after records that
    all went through the reader and [processRecord], goes through both
    again with no failure and no new alert; a second Schema record with the
    id of an earlier one and other content makes [initialize] fail, and so
    does a second Channel record with the id of an earlier one and other
    content: the source is left without buckets. *)
Theorem C3_redefinition_is_fatal (this : Source) :
  (∀ pre record mid checks st,
     (∃ s, record = RSchema s) ∨ (∃ c, record = RChannel c) →
     check_records no_checks (pre ++ record :: mid)
       = (pre ++ record :: mid, inr checks) →
     @processRecords (McapStreamReader framing) initial_state (pre ++ record :: mid)
       = inr st →
     (∃ checks', check_record checks record = inr checks')
     ∧ ∃ st', @processRecord (McapStreamReader framing) st record = inr st'
              ∧ alerts st' = alerts st)
  ∧ (∀ pre s1 mid s2 post,
       @records_of framing this = pre ++ RSchema s1 :: mid ++ RSchema s2 :: post →
       schema_id s1 = schema_id s2 → s1 ≠ s2 →
       @fails (McapStreamReader framing) this)
  ∧ (∀ pre c1 mid c2 post,
       @records_of framing this = pre ++ RChannel c1 :: mid ++ RChannel c2 :: post →
       channel_id c1 = channel_id c2 → c1 ≠ c2 →
       @fails (McapStreamReader framing) this).
Proof.
  split_and!.
  - intros pre record mid checks st Hkind Hchecks Hrun. split.
    + destruct Hkind as [[s ->]|[c ->]]; [by eexists|]. simpl.
      rewrite (check_records_channels _ _ _ _ c Hchecks).
      * rewrite decide_True by done. by eexists.
      * apply elem_of_app. right. left.
    + replace (pre ++ record :: mid) with ((pre ++ [record]) ++ mid) in Hrun
        by (by rewrite <- app_assoc).
      apply processRecords_app_inv in Hrun as (st1 & Hfirst & Hmid).
      destruct (redefinition_among_handed_out (H := McapStreamReader framing) this)
        as (Hagain & _ & _).
      by eapply Hagain.
  - intros pre s1 mid s2 post Hrecords Hid Hne.
    destruct (check_records no_checks (@records_of framing this))
      as [passed [reason|checks]] eqn:Hchecks.
    + by eapply check_failure_fails.
    + destruct (redefinition_among_handed_out (H := McapStreamReader framing) this)
        as (_ & Hschema & _).
      apply (Hschema pre s1 mid s2 post); [|done..].
      by rewrite (check_pass_records _ _ _ Hchecks).
  - intros pre c1 mid c2 post Hrecords Hid Hne.
    destruct (check_records no_checks (@records_of framing this))
      as [passed [reason|checks]] eqn:Hchecks.
    + by eapply check_failure_fails.
    + exfalso. apply Hne.
      assert (H1 : checks_channelsById checks !! channel_id c1 = Some c1).
      { eapply check_records_channels; [done|]. rewrite Hrecords.
        apply elem_of_app. right. left. }
      assert (H2 : checks_channelsById checks !! channel_id c2 = Some c2).
      { eapply check_records_channels; [done|]. rewrite Hrecords.
        apply elem_of_app. right. right. apply elem_of_app. right. left. }
      rewrite Hid in H1. congruence.
Qed.

(** C4: on the records that [McapStreamReader] frames from the stream, a
    Channel record with a nonzero schema id that no earlier Schema record
    carries makes [initialize] fail, whatever comes after it: the source is
    left without buckets. *)
Theorem C4_unresolved_schema_is_fatal
    (this : Source) (pre post : list TypedMcapRecord) (c : Channel) :
  @records_of framing this = pre ++ RChannel c :: post →
  channel_schemaId c ≠ 0 →
  (∀ s, RSchema s ∈ pre → schema_id s ≠ channel_schemaId c) →
  @fails (McapStreamReader framing) this.
Proof.
  intros Hrecords Hnonzero Hnoschema.
  destruct (check_records no_checks (@records_of framing this))
    as [passed [reason|checks]] eqn:Hchecks.
  { by eapply check_failure_fails. }
  apply (unresolved_schema_unless_errored (H := McapStreamReader framing)
           this pre post c); [|done..|].
  { by rewrite (check_pass_records _ _ _ Hchecks). }
  intros st Hrun Herr.
  destruct (errored_origin (H := McapStreamReader framing) _ _ _ Hrun Herr)
    as (c0 & Hin & Hid & Hschema).
  assert (c0 = c) as ->.
  { assert (H1 : checks_channelsById checks !! channel_id c0 = Some c0).
    { eapply check_records_channels; [done|]. rewrite Hrecords.
      apply elem_of_app. by left. }
    assert (H2 : checks_channelsById checks !! channel_id c = Some c).
    { eapply check_records_channels; [done|]. rewrite Hrecords.
      apply elem_of_app. right. left. }
    rewrite Hid in H1. congruence. }
  destruct Hschema as [Hzero|[s Hs]]; [done|].
  rewrite (no_schema_processRecords (H := McapStreamReader framing)
             initial_state pre st (channel_schemaId c)) in Hs; done.
Qed.
End RealReader.

Lemma C3_redefinition_is_fatal_witness :
  let framing := Demo.framing Demo.table_redefined in
  let s := Demo.schema1 in
  let c := Demo.channel 1 1 "/a" "json" in
  let st := @state_after (McapStreamReader framing) [RSchema s; RChannel c; RSchema s] in
  ((∃ checks', check_record (mkReaderChecks false {[ 1 := c ]}) (RChannel c) = inr checks')
   ∧ ∃ st', @processRecord (McapStreamReader framing) st (RChannel c) = inr st'
            ∧ alerts st' = alerts st)
  ∧ @fails (McapStreamReader framing) (new_source 3 Demo.bytes_schema_redefined)
  ∧ @fails (McapStreamReader framing) (new_source 4 Demo.bytes_channel_redefined).
Proof.
  intros framing s c st. split; [|split].
  - destruct (C3_redefinition_is_fatal framing (new_source 0 [])) as (Hagain & _ & _).
    apply (Hagain [RSchema s] (RChannel c) [RSchema s]
             (mkReaderChecks false {[ 1 := c ]}) st).
    + right. exists c. reflexivity.
    + vm_compute. reflexivity.
    + reflexivity.
  - destruct (C3_redefinition_is_fatal framing (new_source 3 Demo.bytes_schema_redefined))
      as (_ & Hschema & _).
    apply (Hschema [] s [RChannel c] Demo.schema1_renamed []).
    + reflexivity.
    + reflexivity.
    + intros Heq. discriminate Heq.
  - destruct (C3_redefinition_is_fatal framing (new_source 4 Demo.bytes_channel_redefined))
      as (_ & _ & Hchannel).
    apply (Hchannel [RSchema s] c [RSchema s] (Demo.channel 1 1 "/b" "json") []).
    + reflexivity.
    + reflexivity.
    + intros Heq. discriminate Heq.
Defined.

Lemma C4_unresolved_schema_is_fatal_witness :
  let framing := Demo.framing Demo.table_late_schema in
  @fails (McapStreamReader framing) (new_source 2 Demo.bytes_late_schema).
Proof.
  intros framing.
  apply (C4_unresolved_schema_is_fatal framing (new_source 2 Demo.bytes_late_schema)
           [] [RSchema Demo.schema9] (Demo.channel 2 9 "/c" "json")).
  - reflexivity.
  - intros Heq. discriminate Heq.
  - intros s Hs. apply elem_of_nil in Hs. destruct Hs.
Defined.

(** ** What a backfill query returns *)

Section Backfill.

Lemma backfill_step_spec args acc msgEvent :
  backfill_step args acc msgEvent =
  if decide (qualifies args msgEvent)
  then JsMap.set acc (topic msgEvent) msgEvent else acc.
Proof.
  unfold backfill_step, qualifies, structuredClone.
  destruct (bool_decide_reflect (compare (receiveTime msgEvent) (backfill_time args) ≤ 0));
    destruct (bool_decide_reflect (topic msgEvent ∈ backfill_topics args)); simpl;
    case_decide; tauto.
Qed.

Lemma backfill_nested args (byChannel : JsMap.t Z (list MessageEvent)) acc :
  fold_left (λ acc '(_, msgEvents), fold_left (backfill_step args) msgEvents acc)
    (JsMap.entries byChannel) acc =
  fold_left (backfill_step args) (scan_order byChannel) acc.
Proof.
  unfold scan_order, JsMap.entries. revert acc.
  induction byChannel as [|[id evs] m IH]; intros acc; simpl; [done|].
  by rewrite fold_left_app, IH.
Qed.

(** After the loop, the entry of a topic is the last event in scan order
    that qualifies on that topic. *)
Lemma backfill_get args msgEvents acc name :
  JsMap.get (fold_left (backfill_step args) msgEvents acc) name =
  match last (filter (qualifies_on args name) msgEvents) with
  | Some msgEvent => Some msgEvent
  | None => JsMap.get acc name
  end.
Proof.
  revert acc. induction msgEvents as [|e es IH]; intros acc; [done|].
  cbn [fold_left]. rewrite IH, filter_cons, backfill_step_spec.
  destruct (decide (qualifies_on args name e)) as [[Hq Ht]|Hno].
  - rewrite last_cons. destruct (last (filter _ es)); [done|].
    rewrite decide_True by done. subst name. apply get_set_eq.
  - destruct (last (filter _ es)); [done|].
    case_decide as Hq; [|done]. apply get_set_ne. intros Ht. apply Hno. by split.
Qed.

Lemma keys_set_NoDup {K V} `{EqDecision K} (m : JsMap.t K V) k v :
  NoDup (JsMap.keys m) → NoDup (JsMap.keys (JsMap.set m k v)).
Proof.
  intros Hnd. destruct (JsMap.get m k) as [v0|] eqn:Hget.
  - rewrite keys_set_present; [done|by eexists].
  - rewrite keys_set_fresh by done. apply NoDup_app. split_and!; [done| |apply NoDup_singleton].
    intros k' Hk' ->%list_elem_of_singleton. by apply get_None_keys in Hget.
Qed.

Lemma Forall_set {K V} `{EqDecision K} (P : K * V → Prop) (m : JsMap.t K V) k v :
  Forall P m → P (k, v) → Forall P (JsMap.set m k v).
Proof.
  intros Hm Hv. induction m as [|[k' v'] m IH]; simpl.
  - by constructor.
  - apply Forall_cons in Hm as [Hv' Hm]. case_decide.
    + by constructor.
    + constructor; [done|by apply IH].
Qed.

Lemma by_topic_fold args msgEvents acc :
  by_topic acc → by_topic (fold_left (backfill_step args) msgEvents acc).
Proof.
  revert acc. induction msgEvents as [|e es IH]; intros acc Hacc; [done|].
  cbn [fold_left]. apply IH. rewrite backfill_step_spec.
  case_decide; [|done]. destruct Hacc as [Hnd Hkeyed]. split.
  - by apply keys_set_NoDup.
  - by apply Forall_set.
Qed.

Lemma by_topic_values m msgEvent :
  by_topic m →
  msgEvent ∈ JsMap.values m ↔ JsMap.get m (topic msgEvent) = Some msgEvent.
Proof.
  intros [Hnd Hkeyed]. unfold JsMap.values. rewrite list_elem_of_fmap. split.
  - intros ([name e] & -> & Hin). simpl.
    rewrite Forall_forall in Hkeyed. rewrite (Hkeyed _ Hin). by apply elem_of_get.
  - intros Hget%get_Some_elem_of. by exists (topic msgEvent, msgEvent).
Qed.

Lemma by_topic_NoDup m : by_topic m → NoDup (topic <$> JsMap.values m).
Proof.
  intros [Hnd Hkeyed]. replace (topic <$> JsMap.values m) with (JsMap.keys m); [done|].
  unfold JsMap.values, JsMap.keys. clear Hnd.
  induction Hkeyed as [|[name e] m Hhead Htail IH]; [done|].
  simpl in *. by rewrite Hhead, IH.
Qed.

(** What [getBackfillMessages] does return: one event per topic, namely,
    for each requested topic on which some stored event was received at or
    before the query time, the last such event in scan order; topics without
    one are left out. *)
Lemma backfill_last_in_scan_order `{Collaborators} args this byChannel :
  msgEventsByChannel this = Some byChannel →
  ∃ msgEvents,
    getBackfillMessages args this = (this, inr msgEvents)
    ∧ NoDup (topic <$> msgEvents)
    ∧ (∀ msgEvent, msgEvent ∈ msgEvents ↔
         last (filter (qualifies_on args (topic msgEvent)) (scan_order byChannel))
           = Some msgEvent)
    ∧ (∀ name, (∃ msgEvent, msgEvent ∈ msgEvents ∧ topic msgEvent = name) ↔
         (∃ msgEvent, msgEvent ∈ scan_order byChannel ∧ qualifies_on args name msgEvent)).
Proof.
  intros Hstore. unfold getBackfillMessages. rewrite Hstore, backfill_nested.
  eexists. split; [done|].
  assert (Hkeyed : by_topic (fold_left (backfill_step args) (scan_order byChannel)
                               JsMap.empty)).
  { apply by_topic_fold. split; [constructor|constructor]. }
  assert (Hmem : ∀ msgEvent,
            msgEvent ∈ JsMap.values (fold_left (backfill_step args) (scan_order byChannel)
                                       JsMap.empty) ↔
            last (filter (qualifies_on args (topic msgEvent)) (scan_order byChannel))
              = Some msgEvent).
  { intros e. rewrite (by_topic_values _ _ Hkeyed), backfill_get.
    by destruct (last (filter _ _)). }
  split_and!; [by apply by_topic_NoDup|done|].
  intros name. split.
  - intros (e & He%Hmem & <-).
    apply last_Some_elem_of, list_elem_of_filter in He as [Hq Hin]. eauto.
  - intros (e & Hin & Hq).
    destruct (last (filter (qualifies_on args name) (scan_order byChannel)))
      as [e'|] eqn:Hlast.
    + assert (Htopic : topic e' = name).
      { apply last_Some_elem_of, list_elem_of_filter in Hlast as [[_ Ht] _]. done. }
      exists e'. split; [|done]. apply Hmem. by rewrite Htopic.
    + apply last_None in Hlast.
      assert (e ∈ filter (qualifies_on args name) (scan_order byChannel)) as Hf
        by (by apply list_elem_of_filter).
      rewrite Hlast in Hf. by apply elem_of_nil in Hf.
Qed.

Lemma StronglySorted_last {A} (R : A → A → Prop) `{!Reflexive R} (l : list A) x :
  StronglySorted R l → last l = Some x → Forall (λ y, R y x) l.
Proof.
  induction 1 as [|y l Hl IH Hy]; [done|].
  rewrite last_cons. destruct (last l) as [z|] eqn:Hlast.
  - intros [= ->]. constructor; [|by apply IH].
    rewrite Forall_forall in Hy. by apply Hy, last_Some_elem_of.
  - intros [= ->]. apply last_None in Hlast as ->. by repeat constructor.
Qed.

(** When the events that qualify on a topic are scanned in receive-time
    order, the event returned for the topic is the latest of them. *)
Lemma backfill_latest_when_scanned_in_order `{Collaborators} args this byChannel
    msgEvents returned :
  msgEventsByChannel this = Some byChannel →
  getBackfillMessages args this = (this, inr msgEvents) →
  returned ∈ msgEvents →
  StronglySorted (λ a b, time_le (receiveTime a) (receiveTime b))
    (filter (qualifies_on args (topic returned)) (scan_order byChannel)) →
  ∀ other, other ∈ scan_order byChannel → qualifies_on args (topic returned) other →
    time_le (receiveTime other) (receiveTime returned).
Proof.
  intros Hstore Hcall Hin Hsorted other Hother Hq.
  destruct (backfill_last_in_scan_order args this byChannel Hstore)
    as (evs & Hcall' & _ & Hmem & _).
  rewrite Hcall in Hcall'. injection Hcall' as <-.
  apply Hmem in Hin.
  eapply (StronglySorted_last _ _ _ Hsorted) in Hin.
  rewrite Forall_forall in Hin. apply Hin. by apply list_elem_of_filter.
  Unshelve. intros x. apply time_le_refl.
Qed.
End Backfill.

(** C2: the claim asks for the event with the latest receive time at or
    before the query time.  On the stream with messages received at 5ns,
    1ns and 3ns on topic [/a], queried at 10ns, [getBackfillMessages]
    returns the single event received at 3ns, the last one scanned, although
    the stored event received at 5ns is on the same topic, not after the
    query time, and later. *)
Theorem C2_backfill_returns_last_scanned_not_latest :
  let H := Demo.collaborators Demo.table_a in
  let this := fst (initialize (new_source 5 Demo.bytes_a)) in
  let args := mkBackfillArgs {[ "/a" ]} (mkTime 0 10) in
  ∃ returned latest byChannel,
    getBackfillMessages args this = (this, inr [returned])
    ∧ receiveTime returned = mkTime 0 3
    ∧ msgEventsByChannel this = Some byChannel
    ∧ latest ∈ scan_order byChannel
    ∧ topic latest = "/a"
    ∧ receiveTime latest = mkTime 0 5
    ∧ compare (receiveTime latest) (backfill_time args) ≤ 0
    ∧ compare (receiveTime latest) (receiveTime returned) > 0.
Proof.
  intros H this args.
  exists (mkMessageEvent "/a" (mkTime 0 3) (mkTime 0 3) [] 0 "Pose"),
    (mkMessageEvent "/a" (mkTime 0 5) (mkTime 0 5) [] 0 "Pose").
  eexists. split_and!.
  - reflexivity.
  - reflexivity.
  - reflexivity.
  - left.
  - reflexivity.
  - reflexivity.
  - vm_compute. intros Hc. discriminate Hc.
  - reflexivity.
Qed.

(** The same happens on a file in log-time order when two channels share a
    topic: the bucket of the channel registered last is scanned last. *)
Example backfill_shared_topic :
  let H := Demo.collaborators Demo.table_interleaved in
  let this := fst (initialize (new_source 4 Demo.bytes_interleaved)) in
  (λ msgEvent, nsec (receiveTime msgEvent)) <$>
    match snd (getBackfillMessages (mkBackfillArgs {[ "/t" ]} (mkTime 0 5)) this) with
    | inr msgEvents => msgEvents
    | inl _ => []
    end = [1].
Proof. vm_compute. reflexivity. Qed.

(** * Further properties of the engine *)

(** ** What a run takes from Header and Metadata records *)

Section HeaderMetadata.
Context `{Collaborators}.

Lemma header_metadata_step st record st' :
  processRecord st record = inr st' →
  metadata st' = metadata st ++ metadata_records [record]
  ∧ profile st' = from_option Some (profile st) (last (header_profiles [record])).
Proof.
  destruct record as [p l|name md|s|c|m|ty]; simpl.
  - intros [= <-]. simpl. by rewrite app_nil_r.
  - by intros [= <-].
  - rewrite app_nil_r.
    destruct (schemasById st !! schema_id s); [case_decide; [|done]|];
      by intros [= <-].
  - rewrite app_nil_r.
    destruct (JsMap.get (channelInfoById st) (channel_id c)).
    { case_decide; [|done]. by intros [= <-]. }
    case_decide; [by intros [= <-]|]. case_decide; [done|].
    by destruct (parseChannel _ _); intros [= <-].
  - rewrite app_nil_r.
    destruct (JsMap.get (channelInfoById st) (message_channelId m));
      [destruct (JsMap.get (messagesByChannel st) (message_channelId m))|].
    2,3: case_decide; [by intros [= <-]|done].
    by intros [= <-].
  - intros [= <-]. by rewrite app_nil_r.
Qed.

Lemma header_profiles_cons record records :
  header_profiles (record :: records) = header_profiles [record] ++ header_profiles records.
Proof. unfold header_profiles. simpl. by destruct record. Qed.

Lemma metadata_records_cons record records :
  metadata_records (record :: records) =
  metadata_records [record] ++ metadata_records records.
Proof. unfold metadata_records. simpl. by destruct record. Qed.

Lemma header_metadata_run st records st' :
  processRecords st records = inr st' →
  metadata st' = metadata st ++ metadata_records records
  ∧ profile st' = from_option Some (profile st) (last (header_profiles records)).
Proof.
  revert st. induction records as [|r rs IH]; intros st.
  - intros [= <-]. simpl. by rewrite app_nil_r.
  - intros (st1 & H1 & H2)%processRecords_cons_inv.
    destruct (header_metadata_step _ _ _ H1) as [Hm1 Hp1].
    destruct (IH _ H2) as [Hm Hp].
    rewrite metadata_records_cons, header_profiles_cons. split.
    + by rewrite Hm, Hm1, app_assoc.
    + rewrite Hp, Hp1, last_app.
      destruct (last (header_profiles rs)); simpl; [done|].
      by destruct (last (header_profiles [r])).
Qed.

(** X1: a successful [initialize] returns the Metadata records of the
    stream, all of them and in file order, and as profile the profile of
    the last Header record, or none when the stream has no Header. *)
Theorem initialize_metadata_and_profile
    (this0 this : Source) (init : Initialization) :
  initialize this0 = (this, inr init) →
  init_metadata init = metadata_records (records_of this0)
  ∧ init_profile init = last (header_profiles (records_of this0)).
Proof.
  intros (st & Hrun & _ & -> & _)%initialize_ok.
  destruct (header_metadata_run _ _ _ Hrun) as [Hm Hp]. simpl in *.
  rewrite Hm, Hp. split; [done|]. by destruct (last _).
Qed.
End HeaderMetadata.

Lemma initialize_metadata_and_profile_witness :
  let H := Demo.collaborators Demo.table_headers in
  let this0 := new_source 6 Demo.bytes_headers in
  let init := finish (state_after Demo.table_headers) in
  init_metadata init =
    [ {| metadata_name := "calibration";
         metadata_metadata := {[ "camera" := "front" ]} |};
      {| metadata_name := "vehicle";
         metadata_metadata := {[ "plate" := "M-1" ]} |} ]
  ∧ init_profile init = Some "ros1".
Proof.
  intros H this0 init.
  apply (initialize_metadata_and_profile this0 (fst (initialize this0)) init).
  reflexivity.
Defined.

(** ** The read loop and the stream *)

Section ReadLoop.
Context `{Collaborators}.

(** X2: past the size guard and with the decompression handlers loaded,
    the outcome of [initialize] is that of one pass of [processRecord] over
    all the records the reader hands out: the first error of that pass if
    there is one, else the reader's failure if it fails, else the result
    built from the final state.  Records handed out before the reader fails
    are processed before its failure surfaces. *)
Theorem initialize_is_one_pass (this : Source) (handlers : DecompressHandlers) :
  options_size this ≤ SIZE_LIMIT →
  loadDecompressHandlers = inr handlers →
  snd (initialize this) =
    match processRecords initial_state
            (fst (decode_all (newReader handlers) (options_stream this))) with
    | inl e => inl e
    | inr st =>
        match snd (decode_all (newReader handlers) (options_stream this)) with
        | Some reason => inl (ReaderFailed reason)
        | None => inr (finish st)
        end
    end.
Proof.
  intros Hsize Hload. unfold initialize. rewrite decide_False by lia. rewrite Hload.
  pose proof (ingest_decode_all (newReader handlers) initial_state (options_stream this))
    as Hsnd.
  destruct (ingest _ _ _) as [unread [e|st]]; simpl in Hsnd |- *.
  - destruct (processRecords _ _) as [e'|st']; simpl in Hsnd; [by simplify_eq|].
    destruct (snd (decode_all _ _)); by simplify_eq.
  - destruct (processRecords _ _) as [e'|st']; simpl in Hsnd; [done|].
    destruct (snd (decode_all _ _)); by simplify_eq.
Qed.

Lemma ingest_suffix reader st stream :
  fst (ingest reader st stream) `suffix_of` stream.
Proof.
  revert reader st. induction stream as [|chunk rest IH]; intros reader st; simpl; [done|].
  destruct (feed reader chunk) as [records [reason|reader']];
    destruct (processRecords st records) as [e|st1]; simpl;
    first [by apply suffix_cons_r | apply suffix_cons_r, IH].
Qed.

(** [initialize] consumes the stream from the front: whatever the
    outcome, the chunks left unread are a suffix of the stream, and after a
    successful run none is left. *)
Theorem initialize_reads_a_prefix (this : Source) :
  options_stream (fst (initialize this)) `suffix_of` options_stream this
  ∧ (∀ init, snd (initialize this) = inr init →
       options_stream (fst (initialize this)) = []).
Proof.
  unfold initialize. case_decide; [done|].
  destruct loadDecompressHandlers as [reason|h]; [done|].
  pose proof (ingest_suffix (newReader h) initial_state (options_stream this)) as Hsuf.
  destruct (ingest _ _ _) as [unread [e|st]] eqn:Hing; simpl in *; [done|].
  split; [done|]. intros init _. by apply ingest_ok in Hing as [-> _].
Qed.

(** X3: when [initialize] throws on a source that was not initialized
    before, the source stays uninitialized: both queries throw
    "initialization not completed" on it, so no partial result can be
    read. *)
Theorem failed_initialize_leaves_queries_closed
    (this : Source) (e : Error)
    (iterArgs : MessageIteratorArgs) (backfillArgs : GetBackfillMessagesArgs) :
  msgEventsByChannel this = None →
  snd (initialize this) = inl e →
  snd (messageIterator iterArgs (fst (initialize this))) = inl InitializationNotCompleted
  ∧ snd (getBackfillMessages backfillArgs (fst (initialize this)))
      = inl InitializationNotCompleted.
Proof.
  intros Hnone Hfail.
  assert (Hstill : msgEventsByChannel (fst (initialize this)) = None).
  { revert Hfail. unfold initialize. case_decide; [done|].
    destruct loadDecompressHandlers as [reason|h]; [done|].
    by destruct (ingest _ _ _) as [unread [e'|st]]. }
  unfold messageIterator, getBackfillMessages. by rewrite Hstill.
Qed.
End ReadLoop.

Lemma initialize_is_one_pass_witness :
  let H := Demo.collaborators Demo.table_a in
  snd (initialize (new_source 7 Demo.bytes_truncated)) = inl (ReaderFailed "invalid opcode").
Proof.
  intros H.
  rewrite (initialize_is_one_pass (H := H) (new_source 7 Demo.bytes_truncated) tt).
  - reflexivity.
  - vm_compute. intros Hc. discriminate Hc.
  - reflexivity.
Defined.

Lemma failed_initialize_leaves_queries_closed_witness :
  let H := Demo.collaborators Demo.table_orphan in
  let this := fst (initialize (new_source 1 Demo.bytes_orphan)) in
  snd (messageIterator (mkIterArgs {[ "/a" ]} None None) this)
    = inl InitializationNotCompleted
  ∧ snd (getBackfillMessages (mkBackfillArgs {[ "/a" ]} (mkTime 0 1)) this)
      = inl InitializationNotCompleted.
Proof.
  intros H this.
  apply (failed_initialize_leaves_queries_closed (new_source 1 Demo.bytes_orphan)
           (ReaderFailed "Encountered message on channel 7 without prior channel record")).
  - reflexivity.
  - vm_compute. reflexivity.
Defined.

Lemma initialize_reads_a_prefix_witness :
  let H := Demo.collaborators Demo.table_a in
  options_stream (fst (initialize (new_source 7 Demo.bytes_truncated)))
    `suffix_of` Demo.bytes_truncated
  ∧ options_stream (fst (initialize (new_source 5 Demo.bytes_a))) = [].
Proof.
  intros H. split.
  - apply (initialize_reads_a_prefix (new_source 7 Demo.bytes_truncated)).
  - eapply (proj2 (initialize_reads_a_prefix (new_source 5 Demo.bytes_a))).
    reflexivity.
Defined.

(** ** Bounds, counts and alerts *)

Section Bookkeeping.
Context `{Collaborators}.

Lemma Inv_more_initial : Inv_more initial_state.
Proof.
  split; simpl; try done.
  - intros r Hr. by apply elem_of_nil in Hr.
Qed.

Lemma Inv_more_ext st st' :
  messagesByChannel st' = messagesByChannel st →
  channelInfoById st' = channelInfoById st →
  channelIdsWithErrors st' = channelIdsWithErrors st →
  startTime st' = startTime st →
  endTime st' = endTime st →
  alerts st' = alerts st →
  Inv_more st → Inv_more st'.
Proof.
  intros E1 E2 E3 E4 E5 E6 [I1 I2 I3 I4 I5 I6].
  split; rewrite ?E1, ?E2, ?E3, ?E4, ?E5, ?E6; done.
Qed.

Lemma next_startTime_cases o t :
  next_startTime o t = Some t ∨ next_startTime o t = o.
Proof. destruct o; simpl; [case_match|]; auto. Qed.

Lemma next_endTime_cases o t :
  next_endTime o t = Some t ∨ next_endTime o t = o.
Proof. destruct o; simpl; [case_match|]; auto. Qed.

Lemma Inv_more_processRecord st record st' :
  Inv st → Inv_more st → processRecord st record = inr st' → Inv_more st'.
Proof.
  intros Hinv Hmore. destruct record as [p l|name md|s|c|m|ty]; simpl.
  - intros [= <-]. by eapply Inv_more_ext; [..|exact Hmore].
  - intros [= <-]. by eapply Inv_more_ext; [..|exact Hmore].
  - destruct (schemasById st !! schema_id s) as [existing|];
      [case_decide; [|done]|]; intros [= <-];
      by eapply Inv_more_ext; [..|exact Hmore].
  - destruct (JsMap.get (channelInfoById st) (channel_id c)) as [existing|] eqn:Hget.
    { case_decide; [|done]. by intros [= <-]. }
    case_decide as Herr; [by intros [= <-]|].
    case_decide as Hschema; [done|].
    pose proof (proj2 (Inv_get_messages st (channel_id c) Hinv) Hget) as Hmsgs.
    destruct Hmore as [I1 I2 I3 I4 I5 I6].
    destruct (parseChannel _ _) as [error|parsed]; intros [= <-].
    + split; simpl; [done..| |].
      * apply Forall_app. split; [done|]. by repeat constructor.
      * rewrite length_app, size_union by (by apply disjoint_singleton_r).
        rewrite size_singleton, I6. done.
    + split; simpl; rewrite ?stored_set_fresh by done; [done..| |done|done].
      intros r Hr. destruct (I4 r Hr) as (info & Hinfo & Hname).
      exists info. split; [|done]. rewrite get_set_ne; [done|]. congruence.
  - destruct (JsMap.get (channelInfoById st) (message_channelId m)) as [info|] eqn:Hinfo;
      [destruct (JsMap.get (messagesByChannel st) (message_channelId m)) as [evs|] eqn:Hevs|].
    2,3: case_decide; [by intros [= <-]|done].
    intros [= <-].
    pose proof (stored_push _ _ _ (make_event info m) Hevs) as Hperm.
    destruct Hmore as [I1 I2 I3 I4 I5 I6]. split; simpl; try done.
    + intros t Ht.
      destruct (next_startTime_cases (startTime st) (fromNanoSec (message_logTime m)))
        as [Hnew|Hold]; rewrite Ht in *.
      * injection Hnew as Heq. subst t.
        exists (mkIteratorResult (message_channelId m) (make_event info m)).
        rewrite Hperm. split; [|done].
        apply elem_of_app. right. left.
      * destruct (I1 t (eq_sym Hold)) as (r & Hr & Hrt). exists r. rewrite Hperm.
        split; [|done]. apply elem_of_app. by left.
    + intros t Ht.
      destruct (next_endTime_cases (endTime st) (fromNanoSec (message_logTime m)))
        as [Hnew|Hold]; rewrite Ht in *.
      * injection Hnew as Heq. subst t.
        exists (mkIteratorResult (message_channelId m) (make_event info m)).
        rewrite Hperm. split; [|done].
        apply elem_of_app. right. left.
      * destruct (I2 t (eq_sym Hold)) as (r & Hr & Hrt). exists r. rewrite Hperm.
        split; [|done]. apply elem_of_app. by left.
    + intros Hempty. rewrite Hempty in Hperm.
      apply Permutation_nil in Hperm. by destruct (stored (messagesByChannel st)).
    + intros r Hr. rewrite Hperm in Hr.
      apply elem_of_app in Hr as [Hr|Hr%list_elem_of_singleton]; [by apply I4|].
      subst r. simpl. eauto.
  - by intros [= <-].
Qed.

Lemma Inv_more_processRecords st records st' :
  Inv st → Inv_more st → processRecords st records = inr st' → Inv_more st'.
Proof.
  revert st. induction records as [|r rs IH]; intros st Hinv Hmore.
  - by intros [= <-].
  - intros (st1 & H1 & H2)%processRecords_cons_inv.
    eapply IH; [| |done].
    + by eapply Inv_processRecord.
    + by eapply Inv_more_processRecord.
Qed.

Lemma initialize_ok_more this this' init :
  initialize this = (this', inr init) →
  ∃ st, processRecords initial_state (records_of this) = inr st
        ∧ Inv st ∧ Inv_more st ∧ init = finish st
        ∧ msgEventsByChannel this' = Some (messagesByChannel st).
Proof.
  intros (st & Hrun & Hinv & -> & ->)%initialize_ok.
  exists st. split_and!; try done.
  eapply Inv_more_processRecords; [apply Inv_initial|apply Inv_more_initial|done].
Qed.
End Bookkeeping.

Section Results.
Context `{Collaborators}.

(** X4: the bounds a successful [initialize] returns are receive times of
    ingested messages, the start no later and the end no earlier than any
    of them; with no ingested message both are the epoch. *)
Theorem initialize_time_bounds (this0 this : Source) (init : Initialization) :
  initialize this0 = (this, inr init) →
  (ingested (records_of this0) = [] →
     init_start init = epoch ∧ init_end init = epoch)
  ∧ (ingested (records_of this0) ≠ [] →
       (∃ r, r ∈ ingested (records_of this0)
             ∧ receiveTime (msgEvent r) = init_start init)
       ∧ (∃ r, r ∈ ingested (records_of this0)
               ∧ receiveTime (msgEvent r) = init_end init)
       ∧ (∀ r, r ∈ ingested (records_of this0) →
            time_le (init_start init) (receiveTime (msgEvent r))
            ∧ time_le (receiveTime (msgEvent r)) (init_end init))).
Proof.
  intros (st & Hrun & Hinv & Hmore & -> & _)%initialize_ok_more.
  pose proof (stored_ingested _ _ Hrun) as Hperm. split.
  - intros Hempty. rewrite Hempty in Hperm. apply Permutation_nil_r in Hperm.
    destruct (more_unset _ Hmore Hperm) as [Hs He]. simpl. by rewrite Hs, He.
  - intros Hsome.
    destruct (ingested (records_of this0)) as [|r0 rest] eqn:Hing; [done|].
    assert (Hr0 : r0 ∈ stored (messagesByChannel st)) by (rewrite Hperm; left).
    destruct (inv_start _ Hinv r0 Hr0) as (ts & Hts & _).
    destruct (inv_end _ Hinv r0 Hr0) as (te & Hte & _).
    simpl. rewrite Hts, Hte. simpl. split_and!.
    + destruct (more_start _ Hmore ts Hts) as (r & Hr & Hrt).
      exists r. by rewrite <- Hperm.
    + destruct (more_end _ Hmore te Hte) as (r & Hr & Hrt).
      exists r. by rewrite <- Hperm.
    + intros r Hr. rewrite <- Hperm in Hr.
      destruct (inv_start _ Hinv r Hr) as (ts' & Hts' & Hle1).
      destruct (inv_end _ Hinv r Hr) as (te' & Hte' & Hle2).
      by simplify_eq.
Qed.

Lemma finish_alerts st :
  ∃ long, init_alerts (finish st) =
          alerts st ++ long
            ++ [if decide (messageCount st = 0%nat) then no_messages_alert
                else unindexed_alert]
          ∧ Forall (λ alert, severity alert = SevWarn) long.
Proof.
  unfold finish. simpl. destruct (durationExceeds _ _ _).
  - exists [long_duration_alert (default epoch (startTime st))
              (default epoch (endTime st))].
    split; [|by repeat constructor].
    case_decide; by rewrite <- !app_assoc.
  - exists []. split; [|constructor]. by case_decide.
Qed.

(** X5: the alert list of a successful [initialize] ends with the "no
    messages" warning when no message was ingested and with the "unindexed"
    warning otherwise: messages dropped for errored channels do not
    count. *)
Theorem initialize_last_alert (this0 this : Source) (init : Initialization) :
  initialize this0 = (this, inr init) →
  (ingested (records_of this0) = [] → last (init_alerts init) = Some no_messages_alert)
  ∧ (ingested (records_of this0) ≠ [] → last (init_alerts init) = Some unindexed_alert).
Proof.
  intros (st & Hrun & Hinv & _ & -> & _)%initialize_ok_more.
  pose proof (stored_ingested _ _ Hrun) as Hperm.
  destruct (finish_alerts st) as (long & -> & _).
  rewrite !app_assoc, last_snoc.
  pose proof (inv_count _ Hinv) as Hcount. rewrite Hperm in Hcount.
  split; intros Hing.
  - rewrite Hing in Hcount. by rewrite decide_True.
  - rewrite decide_False; [done|].
    rewrite Hcount. by destruct (ingested (records_of this0)).
Qed.


End Results.

Lemma initialize_time_bounds_witness :
  (let H := Demo.collaborators Demo.table_errored in
   let init := finish (state_after Demo.table_errored) in
   init_start init = epoch ∧ init_end init = epoch)
  ∧ (let H := Demo.collaborators Demo.table_a in
     let this0 := new_source 5 Demo.bytes_a in
     let init := finish (state_after Demo.table_a) in
     ∀ r, r ∈ ingested (records_of this0) →
       time_le (init_start init) (receiveTime (msgEvent r))
       ∧ time_le (receiveTime (msgEvent r)) (init_end init)).
Proof.
  split.
  - intros H init.
    pose (this0 := new_source 3 Demo.bytes_errored).
    assert (Hinit : initialize this0 = (fst (initialize this0), inr init))
      by reflexivity.
    apply (proj1 (initialize_time_bounds this0 _ init Hinit)).
    reflexivity.
  - intros H this0 init.
    assert (Hinit : initialize this0 = (fst (initialize this0), inr init))
      by reflexivity.
    apply (proj2 (initialize_time_bounds this0 _ init Hinit)).
    intros Hc. discriminate Hc.
Defined.

Lemma initialize_last_alert_witness :
  (let H := Demo.collaborators Demo.table_errored in
   last (init_alerts (finish (state_after Demo.table_errored))) = Some no_messages_alert)
  ∧ (let H := Demo.collaborators Demo.table_a in
     last (init_alerts (finish (state_after Demo.table_a))) = Some unindexed_alert).
Proof.
  split.
  - intros H.
    pose (this0 := new_source 3 Demo.bytes_errored).
    assert (Hinit : initialize this0 =
                    (fst (initialize this0), inr (finish (state_after Demo.table_errored))))
      by reflexivity.
    apply (proj1 (initialize_last_alert this0 _ _ Hinit)).
    reflexivity.
  - intros H.
    pose (this0 := new_source 5 Demo.bytes_a).
    assert (Hinit : initialize this0 =
                    (fst (initialize this0), inr (finish (state_after Demo.table_a))))
      by reflexivity.
    apply (proj2 (initialize_last_alert this0 _ _ Hinit)).
    intros Hc. discriminate Hc.
Defined.


(** ** The topic list, the publishers and the datatypes *)

Section Summaries.
Context `{Collaborators}.

Lemma sum_topics_fold_full st infos acc :
  sum_topics (fold_left (summarize_channel st) infos acc) =
  sum_topics acc ++ (topic_of_info <$> infos).
Proof.
  revert acc. induction infos as [|info infos IH]; intros acc; simpl.
  - by rewrite app_nil_r.
  - rewrite IH. simpl. by rewrite <- app_assoc.
Qed.

Lemma Forall2_same_keys {V1 V2} (Q : V1 → Z * V2 → Prop)
    (m1 : JsMap.t Z V1) (m2 : JsMap.t Z V2) :
  JsMap.keys m1 = JsMap.keys m2 →
  (∀ k v1 v2, (k, v1) ∈ m1 → (k, v2) ∈ m2 → Q v1 (k, v2)) →
  Forall2 Q (JsMap.values m1) m2.
Proof.
  revert m2. induction m1 as [|[k v1] m1 IH]; intros [|[k' v2] m2]; simpl.
  - constructor.
  - done.
  - done.
  - intros [= <- Hkeys] HQ. constructor.
    + apply HQ; left.
    + apply IH; [done|]. intros k0 w1 w2 H1 H2. apply HQ; by right.
Qed.

(** X7: the topic list of a successful [initialize] has one entry per
    bucket, in the order of the buckets, and every event of a bucket carries
    the topic of its entry and the entry's schema name, or the empty string
    when the entry has none. *)
Theorem initialize_topics_match_buckets
    (this0 this : Source) (init : Initialization) :
  initialize this0 = (this, inr init) →
  ∃ byChannel,
    msgEventsByChannel this = Some byChannel
    ∧ Forall2
        (λ entry bucket,
           Forall (λ msgEvent,
                     topic msgEvent = topic_name entry
                     ∧ schemaName msgEvent = default "" (topic_schemaName entry))
                  (snd bucket))
        (init_topics init) (JsMap.entries byChannel).
Proof.
  intros (st & Hrun & Hinv & Hmore & -> & Hstore)%initialize_ok_more.
  exists (messagesByChannel st). split; [done|].
  unfold finish, summarize. simpl. rewrite sum_topics_fold_full. simpl.
  apply Forall2_fmap_l.
  apply Forall2_same_keys; [symmetry; apply (inv_keys _ Hinv)|].
  intros id info evs Hinfo Hevs. simpl. apply Forall_forall. intros e He.
  apply (elem_of_get _ _ _ (inv_nodup _ Hinv)) in Hinfo.
  assert (Hr : mkIteratorResult id e ∈ stored (messagesByChannel st)).
  { apply elem_of_stored. exists evs. by split. }
  destruct (inv_topic _ Hinv _ Hr) as (info1 & Hinfo1 & Htopic).
  destruct (more_schemaName _ Hmore _ Hr) as (info2 & Hinfo2 & Hname).
  simpl in *. by simplify_eq.
Qed.

Lemma publishers_fold st infos acc name :
  default ∅ (JsMap.get (sum_publishersByTopic
                          (fold_left (summarize_channel st) infos acc)) name) =
  default ∅ (JsMap.get (sum_publishersByTopic acc) name)
    ∪ list_to_set (publisher_of <$> filter (on_topic name) infos).
Proof.
  revert acc. induction infos as [|info infos IH]; intros acc.
  - simpl. by rewrite union_empty_r_L.
  - cbn [fold_left]. rewrite IH, filter_cons.
    unfold summarize_channel; simpl.
    destruct (decide (on_topic name info)) as [Hon|Hoff].
    + unfold on_topic in Hon. rewrite Hon, get_set_eq. simpl.
      unfold publisher_of at 2. by rewrite <- (assoc_L (∪)).
    + by rewrite get_set_ne.
Qed.

Lemma publishers_fold_None st infos acc name :
  JsMap.get (sum_publishersByTopic acc) name = None →
  filter (on_topic name) infos = [] →
  JsMap.get (sum_publishersByTopic (fold_left (summarize_channel st) infos acc)) name
  = None.
Proof.
  revert acc. induction infos as [|info infos IH]; intros acc Hacc; [done|].
  rewrite filter_cons. case_decide as Hon; [done|]. intros Hnone.
  cbn [fold_left]. apply IH; [|done].
  unfold summarize_channel; simpl. by rewrite get_set_ne.
Qed.

(** X8: in the result of a successful [initialize] the publishers of a
    topic are the publisher identities (the [callerid] metadata, else the
    channel id as a string) of the registered channels on that topic, and a
    topic without a registered channel has no entry. *)
Theorem initialize_publishers_by_topic
    (this0 this : Source) (init : Initialization) (st : State) (name : string) :
  initialize this0 = (this, inr init) →
  processRecords initial_state (records_of this0) = inr st →
  default ∅ (JsMap.get (init_publishersByTopic init) name) =
    list_to_set (publisher_of <$>
                   filter (on_topic name) (JsMap.values (channelInfoById st)))
  ∧ (filter (on_topic name) (JsMap.values (channelInfoById st)) = [] →
     JsMap.get (init_publishersByTopic init) name = None).
Proof.
  intros (st' & Hrun & _ & -> & _)%initialize_ok Hst.
  assert (st' = st) as -> by congruence.
  unfold finish, summarize. simpl. split.
  - rewrite publishers_fold. simpl. by rewrite union_empty_l_L.
  - by apply publishers_fold_None.
Qed.

Lemma set_fold_get {V} (entries : list (string * V)) (acc : JsMap.t string V) name :
  JsMap.get (fold_left (λ dts '(k, v), JsMap.set dts k v) entries acc) name =
  match last (filter (λ entry, fst entry = name) entries) with
  | Some entry => Some (snd entry)
  | None => JsMap.get acc name
  end.
Proof.
  revert acc. induction entries as [|[k v] entries IH]; intros acc; [done|].
  cbn [fold_left]. rewrite IH, filter_cons. simpl.
  destruct (decide (k = name)) as [->|Hne].
  - rewrite last_cons. destruct (last (filter _ entries)); [done|].
    simpl. apply get_set_eq.
  - destruct (last (filter _ entries)); [done|]. by apply get_set_ne.
Qed.

Lemma sum_datatypes_fold st infos acc :
  sum_datatypes (fold_left (summarize_channel st) infos acc) =
  fold_left (λ dts '(k, v), JsMap.set dts k v) (all_datatypes infos) (sum_datatypes acc).
Proof.
  revert acc. induction infos as [|info infos IH]; intros acc; [done|].
  cbn [fold_left]. rewrite IH. unfold all_datatypes. simpl.
  by rewrite fold_left_app.
Qed.

(** X9: the datatype table of a successful [initialize] maps a name to
    the datatype written last for it: that of the last registered channel
    whose table has the name; a name no channel has is not in the table. *)
Theorem initialize_datatypes_last_wins
    (this0 this : Source) (init : Initialization) (st : State) (name : string) :
  initialize this0 = (this, inr init) →
  processRecords initial_state (records_of this0) = inr st →
  JsMap.get (init_datatypes init) name =
    snd <$> last (filter (λ entry, fst entry = name)
                    (all_datatypes (JsMap.values (channelInfoById st)))).
Proof.
  intros (st' & Hrun & _ & -> & _)%initialize_ok Hst.
  assert (st' = st) as -> by congruence.
  unfold finish, summarize. simpl.
  rewrite sum_datatypes_fold, set_fold_get. simpl.
  by destruct (last _).
Qed.
End Summaries.

Lemma initialize_topics_match_buckets_witness :
  let H := Demo.collaborators Demo.table_a in
  let this0 := new_source 5 Demo.bytes_a in
  let init := finish (state_after Demo.table_a) in
  ∃ byChannel,
    msgEventsByChannel (fst (initialize this0)) = Some byChannel
    ∧ Forall2
        (λ entry bucket,
           Forall (λ msgEvent,
                     topic msgEvent = topic_name entry
                     ∧ schemaName msgEvent = default "" (topic_schemaName entry))
                  (snd bucket))
        (init_topics init) (JsMap.entries byChannel).
Proof.
  intros H this0 init.
  apply (initialize_topics_match_buckets this0 (fst (initialize this0)) init).
  reflexivity.
Defined.

Lemma initialize_publishers_by_topic_witness :
  let H := Demo.collaborators Demo.table_publishers in
  let st := state_after Demo.table_publishers in
  default ∅ (JsMap.get (init_publishersByTopic (finish st)) "/t")
    = list_to_set [ "/talker"; "2" ]
  ∧ JsMap.get (init_publishersByTopic (finish st)) "/other" = None.
Proof.
  intros H st.
  pose (this0 := new_source 3 Demo.bytes_publishers).
  assert (Hinit : initialize this0 = (fst (initialize this0), inr (finish st)))
    by reflexivity.
  assert (Hrun : processRecords initial_state (records_of this0) = inr st)
    by reflexivity.
  split.
  - rewrite (proj1 (initialize_publishers_by_topic this0 _ _ st "/t" Hinit Hrun)).
    reflexivity.
  - apply (proj2 (initialize_publishers_by_topic this0 _ _ st "/other" Hinit Hrun)).
    reflexivity.
Defined.

Lemma initialize_datatypes_last_wins_witness :
  let H := Demo.typed_collaborators Demo.table_publishers in
  let st := state_after Demo.table_publishers in
  JsMap.get (init_datatypes (finish st)) "Header" = Some "cdr"
  ∧ JsMap.get (init_datatypes (finish st)) "json" = Some "json"
  ∧ JsMap.get (init_datatypes (finish st)) "ros1msg" = None.
Proof.
  intros H st.
  pose (this0 := new_source 3 Demo.bytes_publishers).
  assert (Hinit : initialize this0 = (fst (initialize this0), inr (finish st)))
    by reflexivity.
  assert (Hrun : processRecords initial_state (records_of this0) = inr st)
    by reflexivity.
  split_and!.
  - rewrite (initialize_datatypes_last_wins this0 _ _ st "Header" Hinit Hrun).
    reflexivity.
  - rewrite (initialize_datatypes_last_wins this0 _ _ st "json" Hinit Hrun).
    reflexivity.
  - rewrite (initialize_datatypes_last_wins this0 _ _ st "ros1msg" Hinit Hrun).
    reflexivity.
Defined.

(** ** More about the two queries *)

Section MoreQueries.
Context `{Collaborators}.

Lemma time_le_antisym a b : time_le a b → time_le b a → a = b.
Proof.
  destruct a as [s1 n1], b as [s2 n2]. unfold time_le, compare; simpl.
  intros H1 H2. repeat case_decide; f_equal; lia.
Qed.

Lemma filter_none {A} (P : A → Prop) `{∀ x, Decision (P x)} (l : list A) :
  (∀ x, x ∈ l → ¬ P x) → filter P l = [].
Proof.
  induction l as [|x l IH]; intros Hno; [done|].
  rewrite filter_cons, decide_False by (apply Hno; left).
  apply IH. intros y Hy. apply Hno. by right.
Qed.

(** What [messageIterator] computes on an initialized source, with the
    bounds it falls back to. *)
Lemma messageIterator_initialized this0 this init args :
  initialize this0 = (this, inr init) →
  ∃ byChannel,
    msgEventsByChannel this = Some byChannel
    ∧ messageIterator args this =
        (this, inr (if decide (size (iter_topics args) = 0%nat) then []
                    else Array_sort by_receiveTime
                           (scan byChannel (iter_topics args)
                              (default (init_start init) (iter_start args))
                              (default (init_end init) (iter_end args))))).
Proof.
  intros (st & _ & _ & -> & ->)%initialize_ok.
  eexists. split; [done|]. unfold messageIterator. simpl.
  destruct (iter_start args), (iter_end args); simpl; by case_decide.
Qed.

Lemma scan_in_selection (byChannel : JsMap.t Z (list MessageEvent)) topics start end_ :
  scan byChannel topics start end_ =
  filter (in_selection topics start end_) (stored byChannel).
Proof.
  rewrite scan_filter. apply list_filter_iff. intros r.
  unfold in_selection. apply selected_spec.
Qed.

Lemma empty_selection topics start end_ (results : list IteratorResult) :
  size topics = 0%nat → filter (in_selection topics start end_) results = [].
Proof.
  intros Hsize%size_empty_inv. apply filter_none.
  intros r _ (_ & _ & Hin). by apply Hsize in Hin.
Qed.

Lemma yielded_selection this0 this init args :
  initialize this0 = (this, inr init) →
  ∃ yielded byChannel,
    messageIterator args this = (this, inr yielded)
    ∧ msgEventsByChannel this = Some byChannel
    ∧ yielded ≡ₚ
        filter (in_selection (iter_topics args)
                  (default (init_start init) (iter_start args))
                  (default (init_end init) (iter_end args)))
               (stored byChannel).
Proof.
  intros Hinit.
  destruct (messageIterator_initialized _ _ _ args Hinit) as (byChannel & Hstore & Hcall).
  eexists _, byChannel. split_and!; [done..|].
  case_decide as Hsize.
  - by rewrite empty_selection.
  - by rewrite Array_sort_perm, scan_in_selection.
Qed.

(** X10: on an initialized source [messageIterator] yields, each once,
    exactly the stored events that are received within the range, bounds
    included, on a requested topic; a missing bound is replaced by the
    corresponding bound of the file. *)
Theorem messageIterator_yields_the_selection
    (this0 this : Source) (init : Initialization) (args : MessageIteratorArgs) :
  initialize this0 = (this, inr init) →
  ∃ yielded byChannel,
    messageIterator args this = (this, inr yielded)
    ∧ msgEventsByChannel this = Some byChannel
    ∧ yielded ≡ₚ
        filter (in_selection (iter_topics args)
                  (default (init_start init) (iter_start args))
                  (default (init_end init) (iter_end args)))
               (stored byChannel).
Proof.
  apply yielded_selection.
Qed.

(** X11: yielded events with the same receive time come in scan order:
    the buckets in the order in which their channels were registered, each
    bucket in the order in which its messages were appended. *)
Theorem messageIterator_ties_in_scan_order
    (this0 this : Source) (init : Initialization) (args : MessageIteratorArgs)
    (t : Time) :
  initialize this0 = (this, inr init) →
  ∃ yielded byChannel,
    messageIterator args this = (this, inr yielded)
    ∧ msgEventsByChannel this = Some byChannel
    ∧ filter (λ r, receiveTime (msgEvent r) = t) yielded =
      filter (λ r, receiveTime (msgEvent r) = t)
        (filter (in_selection (iter_topics args)
                   (default (init_start init) (iter_start args))
                   (default (init_end init) (iter_end args)))
                (stored byChannel)).
Proof.
  intros Hinit.
  destruct (messageIterator_initialized _ _ _ args Hinit) as (byChannel & Hstore & Hcall).
  eexists _, byChannel. split_and!; [done..|].
  case_decide as Hsize.
  - by rewrite empty_selection.
  - rewrite <- scan_in_selection.
    set (a := mkIteratorResult 0 (mkMessageEvent "" t t [] 0 "")).
    assert (Hsame : ∀ r, cmp_le by_receiveTime a r ∧ cmp_le by_receiveTime r a
                         ↔ receiveTime (msgEvent r) = t).
    { intros r. unfold cmp_le, by_receiveTime. simpl. split.
      - intros [H1 H2]. symmetry. by apply time_le_antisym.
      - intros ->. rewrite compare_refl. lia. }
    rewrite <- !(list_filter_iff _ _ _ Hsame).
    apply (Array_sort_stable by_receiveTime).
    intros x y z. apply time_le_trans.
Qed.

Lemma scan_order_stored (byChannel : JsMap.t Z (list MessageEvent)) msgEvent :
  msgEvent ∈ scan_order byChannel ↔
  ∃ id, mkIteratorResult id msgEvent ∈ stored byChannel.
Proof.
  unfold scan_order, stored, JsMap.entries.
  rewrite list_elem_of_In, in_flat_map. split.
  - intros ([id evs] & Hin & He). exists id.
    rewrite list_elem_of_In, in_flat_map. exists (id, evs). split; [done|].
    apply list_elem_of_In, list_elem_of_fmap. exists msgEvent.
    split; [done|by apply list_elem_of_In].
  - intros (id & Hin). rewrite list_elem_of_In, in_flat_map in Hin.
    destruct Hin as ([id' evs] & Hin & He). exists (id', evs). split; [done|].
    apply list_elem_of_In, list_elem_of_fmap in He as (e & [= -> ->] & He).
    by apply list_elem_of_In.
Qed.

(** X12: every event [getBackfillMessages] returns for a topic set and a
    time is among the events [messageIterator] yields for the same topics
    from the start of the file up to that time. *)
Theorem backfill_within_iterator
    (this0 this : Source) (init : Initialization) (args : GetBackfillMessagesArgs) :
  initialize this0 = (this, inr init) →
  ∃ msgEvents yielded,
    getBackfillMessages args this = (this, inr msgEvents)
    ∧ messageIterator
        {| iter_topics := backfill_topics args; iter_start := None;
           iter_end := Some (backfill_time args) |} this = (this, inr yielded)
    ∧ ∀ msgEvent, msgEvent ∈ msgEvents →
        ∃ id, mkIteratorResult id msgEvent ∈ yielded.
Proof.
  intros Hinit.
  destruct (yielded_selection _ _ _
              {| iter_topics := backfill_topics args; iter_start := None;
                 iter_end := Some (backfill_time args) |} Hinit)
    as (yielded & byChannel & Hcall & Hstore & Hperm).
  destruct (backfill_last_in_scan_order args this byChannel Hstore)
    as (msgEvents & Hback & _ & Hmem & _).
  exists msgEvents, yielded. split_and!; [done..|].
  intros e He%Hmem.
  apply last_Some_elem_of, list_elem_of_filter in He as [[[Htime Htopic] _] Hin].
  apply scan_order_stored in Hin as [id Hin]. exists id.
  rewrite Hperm. apply list_elem_of_filter. split; [|done].
  apply initialize_ok in Hinit as (st & _ & Hinv & -> & ->).
  injection Hstore as <-.
  destruct (inv_start _ Hinv _ Hin) as (ts & Hts & Hle).
  unfold in_selection. simpl in *. rewrite Hts. simpl. done.
Qed.
End MoreQueries.

Section MoreBackfill.
Context `{Collaborators}.

(** X13: on an initialized source [getBackfillMessages] returns stored
    events, at most one per topic, and has an event for a topic exactly when
    the topic is requested and some stored event on it is received at or
    before the query time; other topics are left out without an error. *)
Theorem backfill_one_event_per_topic
    (this0 this : Source) (init : Initialization) (args : GetBackfillMessagesArgs) :
  initialize this0 = (this, inr init) →
  ∃ msgEvents byChannel,
    getBackfillMessages args this = (this, inr msgEvents)
    ∧ msgEventsByChannel this = Some byChannel
    ∧ NoDup (topic <$> msgEvents)
    ∧ (∀ msgEvent, msgEvent ∈ msgEvents → msgEvent ∈ scan_order byChannel)
    ∧ (∀ name,
         (∃ msgEvent, msgEvent ∈ msgEvents ∧ topic msgEvent = name) ↔
         name ∈ backfill_topics args
         ∧ ∃ msgEvent, msgEvent ∈ scan_order byChannel
                       ∧ topic msgEvent = name
                       ∧ time_le (receiveTime msgEvent) (backfill_time args)).
Proof.
  intros (byChannel & start & end_ & Hstore & _)%initialized_store.
  destruct (backfill_last_in_scan_order args this byChannel Hstore)
    as (msgEvents & Hcall & Hnodup & Hmem & Htopics).
  exists msgEvents, byChannel. split_and!; [done..| |].
  - intros e He%Hmem. by apply last_Some_elem_of, list_elem_of_filter in He as [_ ?].
  - intros name. rewrite Htopics. unfold qualifies_on, qualifies, time_le. split.
    + intros (e & Hin & [Htime Htopic] & <-). split; [done|]. by exists e.
    + intros (Hname & e & Hin & <- & Htime). by exists e.
Qed.

(** X14: when the stored events on a topic that are received at or before
    the query time are scanned in receive-time order, the event
    [getBackfillMessages] returns for the topic is the latest of them. *)
Theorem backfill_latest_in_time_ordered_scan
    (this : Source) (args : GetBackfillMessagesArgs)
    (byChannel : JsMap.t Z (list MessageEvent))
    (msgEvents : list MessageEvent) (returned : MessageEvent) :
  msgEventsByChannel this = Some byChannel →
  getBackfillMessages args this = (this, inr msgEvents) →
  returned ∈ msgEvents →
  StronglySorted (λ a b, time_le (receiveTime a) (receiveTime b))
    (filter (qualifies_on args (topic returned)) (scan_order byChannel)) →
  ∀ other, other ∈ scan_order byChannel →
    topic other = topic returned →
    topic other ∈ backfill_topics args →
    time_le (receiveTime other) (backfill_time args) →
    time_le (receiveTime other) (receiveTime returned).
Proof.
  intros Hstore Hcall Hin Hsorted other Hother Htopic Hrequested Htime.
  eapply backfill_latest_when_scanned_in_order; done.
Qed.
End MoreBackfill.

Lemma messageIterator_yields_the_selection_witness :
  let H := Demo.collaborators Demo.table_a in
  let this0 := new_source 5 Demo.bytes_a in
  let init := finish (state_after Demo.table_a) in
  let args := mkIterArgs {[ "/a" ]} None (Some (mkTime 0 4)) in
  ∃ yielded byChannel,
    messageIterator args (fst (initialize this0)) = (fst (initialize this0), inr yielded)
    ∧ msgEventsByChannel (fst (initialize this0)) = Some byChannel
    ∧ yielded ≡ₚ
        filter (in_selection (iter_topics args)
                  (default (init_start init) (iter_start args))
                  (default (init_end init) (iter_end args)))
               (stored byChannel).
Proof.
  intros H this0 init args.
  apply (messageIterator_yields_the_selection this0 (fst (initialize this0)) init args).
  reflexivity.
Defined.

Lemma messageIterator_ties_in_scan_order_witness :
  let H := Demo.collaborators Demo.table_shared in
  let this0 := new_source 5 Demo.bytes_shared in
  let init := finish (state_after Demo.table_shared) in
  let args := mkIterArgs {[ "/t" ]} None None in
  ∃ yielded byChannel,
    messageIterator args (fst (initialize this0)) = (fst (initialize this0), inr yielded)
    ∧ msgEventsByChannel (fst (initialize this0)) = Some byChannel
    ∧ filter (λ r, receiveTime (msgEvent r) = mkTime 0 2) yielded =
      filter (λ r, receiveTime (msgEvent r) = mkTime 0 2)
        (filter (in_selection (iter_topics args)
                   (default (init_start init) (iter_start args))
                   (default (init_end init) (iter_end args)))
                (stored byChannel)).
Proof.
  intros H this0 init args.
  apply (messageIterator_ties_in_scan_order this0 (fst (initialize this0)) init args).
  reflexivity.
Defined.

Lemma backfill_within_iterator_witness :
  let H := Demo.collaborators Demo.table_a in
  let this0 := new_source 5 Demo.bytes_a in
  let this := fst (initialize this0) in
  let args := mkBackfillArgs {[ "/a" ]} (mkTime 0 4) in
  ∃ msgEvents yielded,
    getBackfillMessages args this = (this, inr msgEvents)
    ∧ messageIterator
        {| iter_topics := backfill_topics args; iter_start := None;
           iter_end := Some (backfill_time args) |} this = (this, inr yielded)
    ∧ ∀ msgEvent, msgEvent ∈ msgEvents →
        ∃ id, mkIteratorResult id msgEvent ∈ yielded.
Proof.
  intros H this0 this args.
  apply (backfill_within_iterator this0 this (finish (state_after Demo.table_a)) args).
  reflexivity.
Defined.

Lemma backfill_one_event_per_topic_witness :
  let H := Demo.collaborators Demo.table_shared in
  let this0 := new_source 5 Demo.bytes_shared in
  let this := fst (initialize this0) in
  let args := mkBackfillArgs {[ "/t"; "/missing" ]} (mkTime 0 2) in
  ∃ msgEvents byChannel,
    getBackfillMessages args this = (this, inr msgEvents)
    ∧ msgEventsByChannel this = Some byChannel
    ∧ NoDup (topic <$> msgEvents)
    ∧ (∀ msgEvent, msgEvent ∈ msgEvents → msgEvent ∈ scan_order byChannel)
    ∧ (∀ name,
         (∃ msgEvent, msgEvent ∈ msgEvents ∧ topic msgEvent = name) ↔
         name ∈ backfill_topics args
         ∧ ∃ msgEvent, msgEvent ∈ scan_order byChannel
                       ∧ topic msgEvent = name
                       ∧ time_le (receiveTime msgEvent) (backfill_time args)).
Proof.
  intros H this0 this args.
  apply (backfill_one_event_per_topic this0 this
           (finish (state_after Demo.table_shared)) args).
  reflexivity.
Defined.

Lemma backfill_latest_in_time_ordered_scan_witness :
  let H := Demo.collaborators Demo.table_shared in
  let this := fst (initialize (new_source 5 Demo.bytes_shared)) in
  let args := mkBackfillArgs {[ "/t" ]} (mkTime 0 10) in
  let event := λ ns, mkMessageEvent "/t" (mkTime 0 ns) (mkTime 0 ns) [] 0 "" in
  time_le (receiveTime (event 2)) (receiveTime (event 3)).
Proof.
  intros H this args event.
  apply (backfill_latest_in_time_ordered_scan this args
           [(1, [event 1; event 2]); (2, [event 3])] [event 3] (event 3)).
  - reflexivity.
  - reflexivity.
  - left.
  - replace (filter _ _) with [event 1; event 2; event 3] by reflexivity.
    repeat constructor; vm_compute; intros Hc; discriminate Hc.
  - right. left.
  - reflexivity.
  - vm_compute. reflexivity.
  - vm_compute. intros Hc. discriminate Hc.
Defined.

(** ** Buckets and the records they come from *)

Section Buckets.
Context `{Collaborators}.

Lemma known_extends st st' id : extends st st' → known st id → known st' id.
Proof.
  intros Hext [[info Hinfo]|Herr].
  - left. exists info. by apply (ext_info _ _ Hext).
  - right. by apply (ext_errored _ _ Hext).
Qed.

Lemma known_after_message st m st' :
  processRecord st (RMessage m) = inr st' → known st (message_channelId m).
Proof.
  simpl. destruct (JsMap.get (channelInfoById st) (message_channelId m)) as [info|] eqn:Hinfo.
  - intros _. left. by rewrite Hinfo.
  - case_decide; [|done]. intros _. by right.
Qed.

Lemma known_messages st records st' m :
  processRecords st records = inr st' → RMessage m ∈ records →
  known st' (message_channelId m).
Proof.
  revert st. induction records as [|r rs IH]; intros st Hrun Hin.
  - by apply elem_of_nil in Hin.
  - apply processRecords_cons_inv in Hrun as (st1 & H1 & H2).
    apply elem_of_cons in Hin as [<-|Hin]; [|by eapply IH].
    eapply known_extends; [|by eapply known_after_message].
    eapply extends_trans; [by eapply extends_processRecord|by eapply extends_processRecords].
Qed.

Lemma known_step st record st' id :
  processRecord st record = inr st' → known st' id →
  known st id ∨ ∃ c, record = RChannel c ∧ channel_id c = id.
Proof.
  destruct record as [p l|name md|s|c|m|ty]; simpl.
  - intros [= <-]. by left.
  - intros [= <-]. by left.
  - destruct (schemasById st !! schema_id s); [case_decide; [|done]|];
      intros [= <-]; by left.
  - destruct (decide (channel_id c = id)) as [Heq|Hne]; [intros _ _; right; eauto|].
    destruct (JsMap.get (channelInfoById st) (channel_id c)).
    { case_decide; [|done]. intros [= <-]. by left. }
    case_decide; [intros [= <-]; by left|]. case_decide; [done|].
    destruct (parseChannel _ _); intros [= <-]; unfold known; simpl.
    + intros [Hreg|[Herr|Herr%elem_of_singleton]%elem_of_union]; [by left; left|by left; right|done].
    + rewrite get_set_ne by done. by left.
  - destruct (JsMap.get (channelInfoById st) (message_channelId m));
      [destruct (JsMap.get (messagesByChannel st) (message_channelId m))|].
    2,3: case_decide; [intros [= <-]; by left|done].
    intros [= <-]. by left.
  - intros [= <-]. by left.
Qed.

Lemma known_origin st records st' id :
  processRecords st records = inr st' → known st' id →
  known st id ∨ ∃ c, RChannel c ∈ records ∧ channel_id c = id.
Proof.
  revert st. induction records as [|r rs IH]; intros st.
  - intros [= <-]. by left.
  - intros (st1 & H1 & H2)%processRecords_cons_inv Hknown.
    destruct (IH _ H2 Hknown) as [Hk1|(c & Hc & Hid)].
    + destruct (known_step _ _ _ _ H1 Hk1) as [Hk|(c & -> & Hid)]; [by left|].
      right. exists c. split; [left|done].
    + right. exists c. split; [by right|done].
Qed.

(** X15: in a stream that [initialize] reads successfully, every Message
    record comes after a Channel record with its channel id. *)
Theorem message_follows_its_channel
    (this0 this : Source) (init : Initialization)
    (pre post : list TypedMcapRecord) (m : Message) :
  initialize this0 = (this, inr init) →
  records_of this0 = pre ++ RMessage m :: post →
  ∃ c, RChannel c ∈ pre ∧ channel_id c = message_channelId m.
Proof.
  intros (st & Hrun & _)%initialize_ok Hrecords.
  rewrite Hrecords in Hrun.
  apply processRecords_app_inv in Hrun as (sta & Ha & Hrest).
  apply processRecords_cons_inv in Hrest as (stb & Hb & _).
  apply known_after_message in Hb.
  destruct (known_origin _ _ _ _ Ha Hb) as [[[info Hinfo]|Herr]|Hc]; [done|done|done].
Qed.

Lemma messages_on_app id records1 records2 :
  messages_on id (records1 ++ records2) = messages_on id records1 ++ messages_on id records2.
Proof. unfold messages_on. apply omap_app. Qed.

Lemma messages_on_none id records :
  (∀ m, RMessage m ∈ records → message_channelId m ≠ id) → messages_on id records = [].
Proof.
  induction records as [|r rs IH]; intros Hno; [done|].
  change (r :: rs) with ([r] ++ rs). rewrite messages_on_app, IH.
  2:{ intros m Hm. apply Hno. by right. }
  rewrite app_nil_r. destruct r as [| | | |m|]; try done.
  unfold messages_on. simpl. rewrite decide_False; [done|]. apply Hno. left.
Qed.

Lemma messages_on_single id m :
  messages_on id [RMessage m] = if decide (message_channelId m = id) then [m] else [].
Proof. unfold messages_on. simpl. by case_decide. Qed.

(** The bucket of a registered channel holds the events of the Message
    records on that channel, in file order. *)
Lemma bucket_contents records st id info :
  processRecords initial_state records = inr st →
  JsMap.get (channelInfoById st) id = Some info →
  JsMap.get (messagesByChannel st) id = Some (make_event info <$> messages_on id records).
Proof.
  revert st. induction records as [|r rs IH] using rev_ind; intros st.
  - by intros [= <-].
  - intros (st1 & Hrs & Hr)%processRecords_app_inv.
    apply processRecords_cons_inv in Hr as (st' & Hr & [= ->]).
    assert (Hinv1 : Inv st1) by (eapply Inv_processRecords; [apply Inv_initial|done]).
    rewrite messages_on_app. specialize (IH st1 Hrs).
    destruct r as [p l|name md|s|c|m|ty]; simpl in Hr.
    + injection Hr as <-. simpl. rewrite app_nil_r. apply IH.
    + injection Hr as <-. simpl. rewrite app_nil_r. apply IH.
    + assert (channelInfoById st = channelInfoById st1
              ∧ messagesByChannel st = messagesByChannel st1) as [-> ->].
      { destruct (schemasById st1 !! schema_id s); [case_decide; [|done]|];
          by injection Hr as <-. }
      simpl. rewrite app_nil_r. apply IH.
    + simpl. rewrite app_nil_r.
      destruct (JsMap.get (channelInfoById st1) (channel_id c)) as [existing|] eqn:Hget.
      { case_decide; [|done]. injection Hr as <-. apply IH. }
      case_decide as Herr; [injection Hr as <-; apply IH|].
      case_decide; [done|].
      destruct (parseChannel _ _); injection Hr as <-; simpl; [apply IH|].
      destruct (decide (channel_id c = id)) as [<-|Hne].
      * rewrite !get_set_eq. intros [= <-]. rewrite messages_on_none; [done|].
        intros m Hm Heq. pose proof (known_messages _ _ _ _ Hrs Hm) as Hknown.
        rewrite Heq in Hknown. destruct Hknown as [[? Hreg]|Herr']; [congruence|done].
      * rewrite !get_set_ne by done. apply IH.
    + destruct (JsMap.get (channelInfoById st1) (message_channelId m)) as [info1|] eqn:Hinfo1;
        [destruct (JsMap.get (messagesByChannel st1) (message_channelId m)) as [evs|] eqn:Hevs|].
      * injection Hr as <-. rewrite messages_on_single. simpl. intros Hinfo.
        destruct (decide (message_channelId m = id)) as [<-|Hne].
        -- rewrite get_set_eq. rewrite (IH Hinfo) in Hevs.
           injection Hevs as <-. rewrite fmap_app. simpl. congruence.
        -- rewrite get_set_ne by done. rewrite app_nil_r. by apply IH.
      * apply (Inv_get_messages _ _ Hinv1) in Hevs. congruence.
      * case_decide; [|done]. injection Hr as <-. intros Hinfo.
        rewrite messages_on_single, decide_False by congruence.
        rewrite app_nil_r. by apply IH.
    + injection Hr as <-. simpl. rewrite app_nil_r. apply IH.
Qed.

(** X16: after a successful [initialize] the bucket of every registered
    channel holds the events of all the Message records of the stream on
    that channel, in file order, each with the log time as receive time,
    the publish time and the data of its record. *)
Theorem initialize_bucket_contents
    (this0 this : Source) (init : Initialization) (st : State)
    (id : Z) (info : ChannelInfo) :
  initialize this0 = (this, inr init) →
  processRecords initial_state (records_of this0) = inr st →
  JsMap.get (channelInfoById st) id = Some info →
  ∃ byChannel,
    msgEventsByChannel this = Some byChannel
    ∧ JsMap.get byChannel id =
        Some ((λ m, {| topic := channel_topic (info_channel info);
                       receiveTime := fromNanoSec (message_logTime m);
                       publishTime := fromNanoSec (message_publishTime m);
                       message := message_data m;
                       sizeInBytes := Z.of_nat (length (message_data m));
                       schemaName := default "" (info_schemaName info) |})
                <$> messages_on id (records_of this0)).
Proof.
  intros (st' & Hrun & _ & _ & ->)%initialize_ok Hst Hinfo.
  assert (st' = st) as -> by congruence.
  eexists. split; [done|]. by apply bucket_contents.
Qed.

(** X17: during the read loop a bucket, once allocated, only grows: its
    channel has an info, the records that follow leave that info as it is,
    and they append to the bucket the events of their Message records on
    the channel, built from that info, and change nothing else in it. *)
Theorem bucket_only_grows
    (pre later : list TypedMcapRecord) (st st' : State) (id : Z)
    (msgEvents : list MessageEvent) :
  processRecords initial_state pre = inr st →
  processRecords st later = inr st' →
  JsMap.get (messagesByChannel st) id = Some msgEvents →
  ∃ info,
    JsMap.get (channelInfoById st) id = Some info
    ∧ JsMap.get (channelInfoById st') id = Some info
    ∧ JsMap.get (messagesByChannel st') id =
        Some (msgEvents ++ (make_event info <$> messages_on id later)).
Proof.
  intros Hpre Hlater Hbucket.
  assert (Hinv : Inv st) by (eapply Inv_processRecords; [apply Inv_initial|done]).
  destruct (JsMap.get (channelInfoById st) id) as [info|] eqn:Hinfo.
  2:{ apply (Inv_get_messages _ _ Hinv) in Hinfo. congruence. }
  pose proof (ext_info _ _ (extends_processRecords _ _ _ Hlater) _ _ Hinfo) as Hinfo'.
  exists info. split_and!; [done..|].
  rewrite (bucket_contents pre st id info Hpre Hinfo) in Hbucket.
  injection Hbucket as <-.
  rewrite (bucket_contents (pre ++ later) st' id info); [|by rewrite processRecords_app, Hpre|done].
  by rewrite messages_on_app, fmap_app.
Qed.
End Buckets.

Lemma message_follows_its_channel_witness :
  let H := Demo.collaborators Demo.table_a in
  ∃ c, RChannel c ∈ [RSchema Demo.schema1; RChannel (Demo.channel 1 1 "/a" "json")]
       ∧ channel_id c = message_channelId (Demo.msg 1 5).
Proof.
  intros H.
  pose (this0 := new_source 5 Demo.bytes_a).
  apply (message_follows_its_channel this0 (fst (initialize this0))
           (finish (state_after Demo.table_a)) _
           [RMessage (Demo.msg 1 1); RMessage (Demo.msg 1 3)]).
  - reflexivity.
  - reflexivity.
Defined.

Lemma initialize_bucket_contents_witness :
  let H := Demo.collaborators Demo.table_a in
  let this0 := new_source 5 Demo.bytes_a in
  ∃ byChannel,
    msgEventsByChannel (fst (initialize this0)) = Some byChannel
    ∧ JsMap.get byChannel 1 =
        Some [ mkMessageEvent "/a" (mkTime 0 5) (mkTime 0 5) [] 0 "Pose";
               mkMessageEvent "/a" (mkTime 0 1) (mkTime 0 1) [] 0 "Pose";
               mkMessageEvent "/a" (mkTime 0 3) (mkTime 0 3) [] 0 "Pose" ].
Proof.
  intros H this0.
  apply (initialize_bucket_contents this0 (fst (initialize this0))
           (finish (state_after Demo.table_a)) (state_after Demo.table_a) 1
           (@mkChannelInfo H (Demo.channel 1 1 "/a" "json") tt
              (Some "Pose") (Some "jsonschema") (Some []))).
  - reflexivity.
  - reflexivity.
  - reflexivity.
Defined.

Lemma bucket_only_grows_witness :
  let H := Demo.collaborators Demo.table_a in
  let pre := [RSchema Demo.schema1; RChannel (Demo.channel 1 1 "/a" "json");
              RMessage (Demo.msg 1 5)] in
  let later := [RMessage (Demo.msg 1 1); RMessage (Demo.msg 1 3)] in
  ∃ info,
    JsMap.get (channelInfoById (state_after pre)) 1 = Some info
    ∧ JsMap.get (channelInfoById (state_after (pre ++ later))) 1 = Some info
    ∧ JsMap.get (messagesByChannel (state_after (pre ++ later))) 1 =
        Some ([mkMessageEvent "/a" (mkTime 0 5) (mkTime 0 5) [] 0 "Pose"]
                ++ (make_event info <$> messages_on 1 later)).
Proof.
  intros H pre later.
  apply (bucket_only_grows pre later (state_after pre) (state_after (pre ++ later)) 1).
  - reflexivity.
  - reflexivity.
  - reflexivity.
Defined.

(** ** Schemas of registered channels, and the keys of the stats *)

Section SchemasAndStats.
Context `{Collaborators}.

Lemma schema_origin st records st' id s :
  processRecords st records = inr st' →
  schemasById st' !! id = Some s →
  schemasById st !! id = Some s ∨ (RSchema s ∈ records ∧ schema_id s = id).
Proof.
  revert st. induction records as [|r rs IH]; intros st.
  - intros [= <-]. by left.
  - intros (st1 & H1 & H2)%processRecords_cons_inv Hs.
    destruct (IH _ H2 Hs) as [Hs1|[Hin Hid]]; [|right; split; [by right|done]].
    destruct r as [p l|name md|s0|c|m|ty]; simpl in H1.
    + injection H1 as <-. by left.
    + injection H1 as <-. by left.
    + assert (schemasById st1 = <[schema_id s0 := s0]> (schemasById st)) as Hst1.
      { destruct (schemasById st !! schema_id s0); [case_decide; [|done]|];
          by injection H1 as <-. }
      rewrite Hst1 in Hs1. destruct (decide (schema_id s0 = id)) as [<-|Hne].
      * rewrite lookup_insert_eq in Hs1. injection Hs1 as <-. right. split; [left|done].
      * rewrite lookup_insert_ne in Hs1 by done. by left.
    + left. destruct (JsMap.get (channelInfoById st) (channel_id c)).
      { case_decide; [|done]. by injection H1 as <-. }
      case_decide; [by injection H1 as <-|]. case_decide; [done|].
      by destruct (parseChannel _ _); injection H1 as <-.
    + left. destruct (JsMap.get (channelInfoById st) (message_channelId m));
        [destruct (JsMap.get (messagesByChannel st) (message_channelId m))|].
      2,3: case_decide; [by injection H1 as <-|done].
      by injection H1 as <-.
    + injection H1 as <-. by left.
Qed.

Lemma Bound_processRecord st record st' :
  Bound st → processRecord st record = inr st' → Bound st'.
Proof.
  intros Hb Hstep.
  pose proof (extends_processRecord _ _ _ Hstep) as Hext.
  assert (Hkeep : channelInfoById st' = channelInfoById st → Bound st').
  { intros Hsame id info. rewrite Hsame. intros Hinfo Hnz.
    destruct (Hb id info Hinfo Hnz) as (s & Hs & Hrest).
    exists s. split; [by apply (ext_schema _ _ Hext)|done]. }
  destruct record as [p l|name md|s|c|m|ty]; simpl in Hstep.
  - apply Hkeep. by injection Hstep as <-.
  - apply Hkeep. by injection Hstep as <-.
  - apply Hkeep.
    destruct (schemasById st !! schema_id s); [case_decide; [|done]|];
      by injection Hstep as <-.
  - destruct (JsMap.get (channelInfoById st) (channel_id c)) eqn:Hget.
    { apply Hkeep. case_decide; [|done]. by injection Hstep as <-. }
    case_decide; [apply Hkeep; by injection Hstep as <-|].
    case_decide as Hschema; [done|].
    destruct (parseChannel _ _); [apply Hkeep; by injection Hstep as <-|].
    injection Hstep as <-. intros id info. simpl.
    destruct (decide (channel_id c = id)) as [<-|Hne].
    + rewrite get_set_eq. intros [= <-]. simpl. intros Hnz.
      destruct (schemasById st !! channel_schemaId c) as [s|] eqn:Hs.
      * by exists s.
      * exfalso. by apply Hschema.
    + rewrite get_set_ne by done. apply Hb.
  - apply Hkeep.
    destruct (JsMap.get (channelInfoById st) (message_channelId m));
      [destruct (JsMap.get (messagesByChannel st) (message_channelId m))|].
    2,3: case_decide; [by injection Hstep as <-|done].
    by injection Hstep as <-.
  - apply Hkeep. by injection Hstep as <-.
Qed.

Lemma Bound_processRecords st records st' :
  Bound st → processRecords st records = inr st' → Bound st'.
Proof.
  revert st. induction records as [|r rs IH]; intros st Hb.
  - by intros [= <-].
  - intros (st1 & H1 & H2)%processRecords_cons_inv.
    eapply IH; [|done]. by eapply Bound_processRecord.
Qed.

(** X18: in a run of [processRecord] that goes through, a registered
    channel with a nonzero schema id carries the name, the encoding and the
    data of a Schema record of the stream with that id. *)
Theorem registered_channel_carries_its_schema
    (records : list TypedMcapRecord) (st : State) (id : Z) (info : ChannelInfo) :
  processRecords initial_state records = inr st →
  JsMap.get (channelInfoById st) id = Some info →
  channel_schemaId (info_channel info) ≠ 0 →
  ∃ s, RSchema s ∈ records
       ∧ schema_id s = channel_schemaId (info_channel info)
       ∧ info_schemaName info = Some (schema_name s)
       ∧ info_schemaEncoding info = Some (schema_encoding s)
       ∧ info_schemaData info = Some (schema_data s).
Proof.
  intros Hrun Hinfo Hnz.
  assert (Hb : Bound st).
  { eapply Bound_processRecords; [|exact Hrun]. intros ? ? Hget. done. }
  destruct (Hb id info Hinfo Hnz) as (s & Hs & Hname & Henc & Hdata).
  destruct (schema_origin _ _ _ _ _ Hrun Hs) as [Hinit|[Hin Hid]]; [done|].
  by exists s.
Qed.

Lemma is_Some_get_set {V} (m : JsMap.t string V) k v name :
  is_Some (JsMap.get (JsMap.set m k v) name) ↔ k = name ∨ is_Some (JsMap.get m name).
Proof.
  destruct (decide (k = name)) as [->|Hne].
  - rewrite get_set_eq. split; [by left|by eexists].
  - rewrite get_set_ne by done. split; [by right|by intros [?|?]].
Qed.

Lemma topicStats_keys_fold st infos acc name :
  Forall (λ info, is_Some (JsMap.get (messagesByChannel st)
                             (channel_id (info_channel info)))) infos →
  is_Some (JsMap.get (sum_topicStats (fold_left (summarize_channel st) infos acc)) name)
  ↔ is_Some (JsMap.get (sum_topicStats acc) name)
    ∨ ∃ info, info ∈ infos ∧ channel_topic (info_channel info) = name.
Proof.
  revert acc. induction infos as [|info infos IH]; intros acc Hall.
  - simpl. split; [by left|]. intros [?|(info & Hin & _)]; [done|].
    by apply elem_of_nil in Hin.
  - apply Forall_cons in Hall as [[evs Hevs] Hall].
    cbn [fold_left]. rewrite IH by done.
    unfold summarize_channel at 1; simpl. rewrite Hevs. simpl.
    rewrite is_Some_get_set. split.
    + intros [[Hk|Hacc]|(i & Hi & Ht)].
      * right. exists info. split; [left|done].
      * by left.
      * right. exists i. split; [by right|done].
    + intros [Hacc|(i & Hi & Ht)]; [by left; right|].
      apply elem_of_cons in Hi as [->|Hi]; [by left; left|].
      right. by exists i.
Qed.

(** X19: the stats map of a successful [initialize] has an entry exactly
    for the topics of its topic list. *)
Theorem initialize_topicStats_keys
    (this0 this : Source) (init : Initialization) (name : string) :
  initialize this0 = (this, inr init) →
  is_Some (JsMap.get (init_topicStats init) name)
  ↔ name ∈ topic_name <$> init_topics init.
Proof.
  intros (st & Hrun & Hinv & -> & _)%initialize_ok.
  unfold finish, summarize. simpl.
  rewrite topicStats_keys_fold, sum_topics_fold.
  2:{ apply Forall_forall. intros info Hin. by apply registered_has_bucket. }
  simpl. rewrite list_elem_of_fmap. split.
  - intros [[? Hnone]|(info & Hin & Ht)]; [done|]. by exists info.
  - intros (info & -> & Hin). right. by exists info.
Qed.
End SchemasAndStats.

Lemma registered_channel_carries_its_schema_witness :
  let H := Demo.collaborators Demo.table_a in
  let info := @mkChannelInfo H (Demo.channel 1 1 "/a" "json") tt
                (Some "Pose") (Some "jsonschema") (Some []) in
  ∃ s, RSchema s ∈ Demo.table_a
       ∧ schema_id s = 1
       ∧ info_schemaName info = Some (schema_name s)
       ∧ info_schemaEncoding info = Some (schema_encoding s)
       ∧ info_schemaData info = Some (schema_data s).
Proof.
  intros H info.
  apply (registered_channel_carries_its_schema Demo.table_a
           (state_after Demo.table_a) 1 info).
  - reflexivity.
  - reflexivity.
  - intros Hc. discriminate Hc.
Defined.

Lemma initialize_topicStats_keys_witness :
  let H := Demo.collaborators Demo.table_shared in
  let init := finish (state_after Demo.table_shared) in
  is_Some (JsMap.get (init_topicStats init) "/t")
  ↔ "/t" ∈ topic_name <$> init_topics init.
Proof.
  intros H init.
  pose (this0 := new_source 5 Demo.bytes_shared).
  apply (initialize_topicStats_keys this0 (fst (initialize this0)) init "/t").
  reflexivity.
Defined.
